(** * Kitchen Nightmares: the ECS core, input edges, the frame loop and combat health

    A shallow embedding of
    - [src/systems/InputSystem.ts] (the held-key set, edge-triggered intents
      and the Escape pause toggle),
    - [src/core/Game.ts] (the [animate] frame loop),
    - the [HealthComponent] interface,
    together with a model of the engine parts ([World], [HealthSystem],
    [DamageSystem], ...) that the repository keeps outside these files. *)

From stdpp Require Import gmap strings list numbers.
From Stdlib Require Import QArith Qcanon.

#[local] Close Scope Qc_scope.
#[local] Close Scope Q_scope.

(** ** Numbers

    A TypeScript [number] that carries a health value or a duration is read
    as an exact rational.  Only sums, differences and comparisons occur. *)

Abbreviation number := Qc (only parsing).

Definition num (n : Z) (d : positive) : number := Q2Qc (n # d).

(** [a < b] and [a <= b] of the source, as booleans that evaluate. *)
Definition ltb (a b : number) : bool :=
  match (a ?= b)%Qc with Lt => true | _ => false end.

Definition leb (a b : number) : bool :=
  match (a ?= b)%Qc with Gt => false | _ => true end.

(** ** Components *)

(** [InputComponent] ([@/components/Input]): the fields that
    [InputSystem.update] reads and writes. *)
Record InputComponent := mkInput {
  up : bool;
  down : bool;
  left : bool;
  right : bool;
  attack : bool;
  dash : bool;
  attackPressedLastFrame : bool;
  dashPressedLastFrame : bool;
  pausePressedLastFrame : bool
}.

(** An [onDeath] closure is opaque to the core; it is identified by a
    name, and calling it is recorded in the event log. *)
Definition Callback := string.

(** [HealthComponent]: optional fields ([?:]) are options. *)
Record HealthComponent := mkHealth {
  current : number;
  max : number;
  pendingDamage : number;
  recentlyHitBy : option (gset string);
  invulnerableCooldown : option number;
  invulnerableRemaining : number;
  onDeath : option Callback
}.

Definition EntityId := nat.

(** An entity with the two component slots this development looks at;
    [hasComponent(ComponentType.Input)] is [input e <> None].  There is one
    component instance per entity and component type: no two entities
    share a component object. *)
Record Entity := mkEntity {
  input : option InputComponent;
  health : option HealthComponent
}.

(** [world.entities] is a JavaScript [Map]: its [values()] are visited in
    insertion order, so the store is the list of its entries in that
    order. *)
Definition Entities := list (EntityId * Entity).

(** [entities.get(id)]: the first entry with that id. *)
Fixpoint getEntity (id : EntityId) (es : Entities) : option Entity :=
  match es with
  | [] => None
  | (i, e) :: rest => if Nat.eqb i id then Some e else getEntity id rest
  end.

Definition inputOf (id : EntityId) (es : Entities) : option InputComponent :=
  e ← getEntity id es; input e.

Definition healthOf (id : EntityId) (es : Entities) : option HealthComponent :=
  e ← getEntity id es; health e.

(** ** The game controller

    [currentGameState], [pauseGame] and [resumeGame] are imported from
    [@/core/GameController]; they are taken as an interface over the
    controller's state. *)
Class GameController (G : Type) := {
  currentGameState : G → string;
  pauseGame : G → G;
  resumeGame : G → G
}.

(** The body of the Escape branch, lines 23-27 of InputSystem.ts. *)
Definition togglePause `{GameController G} (g : G) : G :=
  if String.eqb (currentGameState g) "playing" then pauseGame g
  else resumeGame g.

(** A controller whose state is the [gameState] string itself. *)
Module StringController.
Definition state := string.
#[global] Instance controller : GameController state := {
  currentGameState g := g;
  pauseGame _ := "paused"%string;
  resumeGame _ := "playing"%string
}.
End StringController.

(** ** InputSystem *)

(** The system's private [keys] set. *)
Record InputSystem := mkInputSystem { keys : gset string }.

(** The [keydown] and [keyup] listeners of the constructor. *)
Definition keydown (code : string) (s : InputSystem) : InputSystem :=
  {| keys := {[code]} ∪ keys s |}.

Definition keyup (code : string) (s : InputSystem) : InputSystem :=
  {| keys := keys s ∖ {[code]} |}.

(** [this.keys.has(code)] *)
Definition has (s : InputSystem) (code : string) : bool :=
  bool_decide (code ∈ keys s).

(** Lines 30-48: the assignments to the component, in source order.  Every
    right-hand side reads the shadow flag before it is overwritten. *)
Definition updateInput (s : InputSystem) (i : InputComponent) : InputComponent :=
  let escapeDown := has s "Escape" in
  let dashKeyDown := has s "ShiftLeft" || has s "ShiftRight" in
  let dash' := dashKeyDown && negb (dashPressedLastFrame i) in
  let dashPressedLastFrame' := dashKeyDown in
  let pausePressedLastFrame' := escapeDown in
  let up' := has s "KeyW" || has s "ArrowUp" in
  let down' := has s "KeyS" || has s "ArrowDown" in
  let left' := has s "KeyA" || has s "ArrowLeft" in
  let right' := has s "KeyD" || has s "ArrowRight" in
  let attackKeyDown := has s "Space" in
  let attack' := attackKeyDown && negb (attackPressedLastFrame i) in
  let attackPressedLastFrame' := attackKeyDown in
  {| up := up'; down := down'; left := left'; right := right';
     attack := attack'; dash := dash';
     attackPressedLastFrame := attackPressedLastFrame';
     dashPressedLastFrame := dashPressedLastFrame';
     pausePressedLastFrame := pausePressedLastFrame' |}.

(** Lines 20-28: the Escape edge of one entity, on the controller. *)
Definition escapeEdge (s : InputSystem) (i : InputComponent) : bool :=
  has s "Escape" && negb (pausePressedLastFrame i).

Section InputSystemUpdate.
Context {G : Type} `{GameController G}.

(** One iteration of the [for] loop (lines 17-49). *)
Definition updateEntity (s : InputSystem) (e : Entity) (g : G) : Entity * G :=
  match input e with
  | Some i =>
      let g' := if escapeEdge s i then togglePause g else g in
      ({| input := Some (updateInput s i); health := health e |}, g')
  | None => (e, g)
  end.

(** The loop over [world.entities.values()]. *)
Fixpoint updateEntities (s : InputSystem) (es : Entities) (g : G) : Entities * G :=
  match es with
  | [] => ([], g)
  | (id, e) :: rest =>
      let '(e', g1) := updateEntity s e g in
      let '(rest', g2) := updateEntities s rest g1 in
      ((id, e') :: rest', g2)
  end.

(** Successive updates, one held-key snapshot per frame. *)
Definition inputFrames (frames : list InputSystem) (st : Entities * G) : Entities * G :=
  foldl (λ st s, updateEntities s st.1 st.2) st frames.

End InputSystemUpdate.

(** Whether the iteration for [e] takes the Escape branch, and how many
    iterations of one update do. *)
Definition takesEscapeBranch (s : InputSystem) (e : Entity) : bool :=
  match input e with
  | Some i => escapeEdge s i
  | None => false
  end.

Definition escapeEdges (s : InputSystem) (es : Entities) : nat :=
  length (List.filter (λ p : EntityId * Entity, takesEscapeBranch s p.2) es).

(** The entities that hold an Input component. *)
Definition hasInput (e : Entity) : bool :=
  match input e with Some _ => true | None => false end.

Definition inputHolders (es : Entities) : nat :=
  length (List.filter (λ p : EntityId * Entity, hasInput p.2) es).

(** The key tests of lines 30 and 42. *)
Definition attackKeyDown (s : InputSystem) : bool := has s "Space".

Definition dashKeyDown (s : InputSystem) : bool :=
  has s "ShiftLeft" || has s "ShiftRight".

Definition escapeDown (s : InputSystem) : bool := has s "Escape".

(** The Input component after each frame of a run of updates. *)
Fixpoint inputTrace (frames : list InputSystem) (i : InputComponent)
  : list InputComponent :=
  match frames with
  | [] => []
  | s :: rest => let i' := updateInput s i in i' :: inputTrace rest i'
  end.

(** Whether a key was down on the frame before frame [n]; before the first
    frame that is what the component's shadow flag says. *)
Definition heldBefore (keyDown : InputSystem → bool) (shadow0 : bool)
    (frames : list InputSystem) (n : nat) : bool :=
  match n with
  | O => shadow0
  | S m => from_option keyDown false (frames !! m)
  end.

(** An Input component that already agrees with the held keys: a further
    update with the same keys leaves it as it is. *)
Definition settled (s : InputSystem) (i : InputComponent) : Prop :=
  up i = (has s "KeyW" || has s "ArrowUp") ∧
  down i = (has s "KeyS" || has s "ArrowDown") ∧
  left i = (has s "KeyA" || has s "ArrowLeft") ∧
  right i = (has s "KeyD" || has s "ArrowRight") ∧
  attack i = false ∧ dash i = false ∧
  attackPressedLastFrame i = attackKeyDown s ∧
  dashPressedLastFrame i = dashKeyDown s ∧
  pausePressedLastFrame i = escapeDown s.

(** ** The engine: World, deferred destruction, events

    [World], [System], [HealthSystem], [DamageSystem] and [LifespanSystem]
    live in [@/engine] and [@/systems]; the definitions of this part follow
    the specification's sections 4.2 and 4.3. *)

(** Modelled from the spec: the engine's [World] (not among the source
    files).  It owns the entity store and the identifiers whose destruction
    was requested during the frame and is deferred to the end-of-frame
    flush. *)
Record World := mkWorld {
  entities : Entities;
  pendingDestroy : list EntityId
}.

(** What the combat pipeline does to the outside: a damage application
    that was accepted, and a call of an [onDeath] closure. *)
Inductive Event :=
| Damaged (target : EntityId) (attackId : string) (damage : number)
| OnDeath (target : EntityId) (cb : Callback).

(** Everything one frame can read or write: the world, the game
    controller's state and the events emitted so far. *)
Record Runtime (G : Type) := mkRuntime {
  world : World;
  game : G;
  events : list Event
}.
Arguments mkRuntime {G} _ _ _.
Arguments world {G} _.
Arguments game {G} _.
Arguments events {G} _.

(** Modelled from the spec: the end-of-frame flush of [World.update]
    (engine, not among the source files) removes every marked entity with
    all its components. *)
Definition flush (w : World) : World :=
  {| entities :=
       List.filter (λ p : EntityId * Entity,
                      negb (existsb (Nat.eqb p.1) (pendingDestroy w)))
                   (entities w);
     pendingDestroy := [] |}.

(** [entity.health = h] on the first entry with that id. *)
Fixpoint setHealth (id : EntityId) (h : HealthComponent) (es : Entities) : Entities :=
  match es with
  | [] => []
  | (i, e) :: rest =>
      if Nat.eqb i id then (i, {| input := input e; health := Some h |}) :: rest
      else (i, e) :: setHealth id h rest
  end.

(** *** Damage application (section 4.3, steps 1 to 4) *)

(** A hitbox of attack [attackId] overlapping the hurtbox of [target]. *)
Record Hit := mkHit {
  target : EntityId;
  attackId : string;
  damage : number
}.

Definition isDead (h : HealthComponent) : bool := leb (current h) 0.

Definition isInvulnerable (h : HealthComponent) : bool :=
  ltb 0 (invulnerableRemaining h).

Definition alreadyHitBy (atk : string) (h : HealthComponent) : bool :=
  match recentlyHitBy h with
  | Some r => bool_decide (atk ∈ r)
  | None => false
  end.

(** Modelled from the spec: the damage application of [DamageSystem] (not
    among the source files), steps 1 to 4 of section 4.3.  [None] is
    "ignore"; otherwise the attack is recorded and its damage accumulated. *)
Definition applyDamage (atk : string) (dmg : number) (h : HealthComponent)
  : option HealthComponent :=
  if isDead h then None
  else if isInvulnerable h then None
  else if alreadyHitBy atk h then None
  else Some {| current := current h;
               max := max h;
               pendingDamage := pendingDamage h + dmg;
               recentlyHitBy := Some ({[atk]} ∪ default ∅ (recentlyHitBy h));
               invulnerableCooldown := invulnerableCooldown h;
               invulnerableRemaining := invulnerableRemaining h;
               onDeath := onDeath h |}.

(** Modelled from the spec: [DamageSystem.update] (not among the source
    files) on one hit event: a target without a Health component is
    skipped. *)
Definition applyHit (hit : Hit) (es : Entities) : Entities * list Event :=
  match healthOf (target hit) es with
  | Some h =>
      match applyDamage (attackId hit) (damage hit) h with
      | Some h' => (setHealth (target hit) h' es,
                    [Damaged (target hit) (attackId hit) (damage hit)])
      | None => (es, [])
      end
  | None => (es, [])
  end.

Fixpoint applyHits (hits : list Hit) (es : Entities) : Entities * list Event :=
  match hits with
  | [] => (es, [])
  | hit :: rest =>
      let '(es1, ev1) := applyHit hit es in
      let '(es2, ev2) := applyHits rest es1 in
      (es2, ev1 ++ ev2)
  end.

(** *** Health resolution (section 4.3, steps 5 and 6) *)

Definition clamp (lo hi x : number) : number :=
  if ltb x lo then lo else if ltb hi x then hi else x.

(** Modelled from the spec: the per-entity body of [HealthSystem.update]
    (not among the source files).  A component with [max <= 0] is a
    defensive no-op and Dead is terminal; otherwise the invulnerability
    countdown is decremented by the elapsed time, the pending damage is
    subtracted and clamped, and a hit that the entity survives restarts the
    countdown.  The boolean tells whether the entity entered Dead. *)
Definition resolveHealth (dt : number) (h : HealthComponent) : HealthComponent * bool :=
  if leb (max h) 0 then (h, false)
  else if isDead h then (h, false)
  else
    let remaining :=
      if ltb 0 (invulnerableRemaining h) then (invulnerableRemaining h - dt)%Qc
      else invulnerableRemaining h in
    let current' := clamp 0 (max h) (current h - pendingDamage h) in
    let damaged := ltb 0 (pendingDamage h) in
    let survived := ltb 0 current' in
    let remaining' :=
      if damaged && survived
      then match invulnerableCooldown h with Some c => c | None => remaining end
      else remaining in
    ({| current := current';
        max := max h;
        pendingDamage := 0;
        recentlyHitBy := recentlyHitBy h;
        invulnerableCooldown := invulnerableCooldown h;
        invulnerableRemaining := remaining';
        onDeath := onDeath h |},
     negb survived).

(** The [onDeath?.()] call of an entity that entered Dead. *)
Definition deathEvents (id : EntityId) (h : HealthComponent) : list Event :=
  match onDeath h with
  | Some cb => [OnDeath id cb]
  | None => []
  end.

(** Modelled from the spec: the loop of [HealthSystem.update] (not among
    the source files): the updated store, the events and the destruction
    requests ([destroyEntity], which only marks the entity), in iteration
    order. *)
Fixpoint resolveEntities (dt : number) (es : Entities)
  : Entities * list Event * list EntityId :=
  match es with
  | [] => ([], [], [])
  | (id, e) :: rest =>
      let '(rest', ev, ds) := resolveEntities dt rest in
      match health e with
      | Some h =>
          let '(h', died) := resolveHealth dt h in
          ((id, {| input := input e; health := Some h' |}) :: rest',
           (if died then deathEvents id h else []) ++ ev,
           (if died then [id] else []) ++ ds)
      | None => ((id, e) :: rest', ev, ds)
      end
  end.

(** Modelled from the spec: the part of [LifespanSystem.update] (not among
    the source files) that clears, from every [recentlyHitBy] set, the
    attacks whose lifespan has ended. *)
Definition clearEnded (ended : gset string) (h : HealthComponent) : HealthComponent :=
  {| current := current h;
     max := max h;
     pendingDamage := pendingDamage h;
     recentlyHitBy := (λ r, r ∖ ended) <$> recentlyHitBy h;
     invulnerableCooldown := invulnerableCooldown h;
     invulnerableRemaining := invulnerableRemaining h;
     onDeath := onDeath h |}.

Definition clearEndedEntities (ended : gset string) (es : Entities) : Entities :=
  List.map (λ p : EntityId * Entity,
              (p.1, {| input := input p.2;
                       health := clearEnded ended <$> health p.2 |})) es.

(** *** Systems and [World.update] *)

(** The systems of the pipeline that this development follows, each with
    what the outside hands it for the frame: the held keys, the attacks
    whose lifespan ended, the hitbox/hurtbox overlaps. *)
Inductive System :=
| SInput (s : InputSystem)
| SLifespan (ended : gset string)
| SDamage (hits : list Hit)
| SHealth.

Section Pipeline.
Context {G : Type} `{GameController G}.

Definition withEntities (es : Entities) (ev : list Event) (rt : Runtime G) : Runtime G :=
  {| world := {| entities := es; pendingDestroy := pendingDestroy (world rt) |};
     game := game rt;
     events := events rt ++ ev |}.

(** [system.update(world, deltaTime)].  [InputSystem.update] takes the
    world only. *)
Definition systemUpdate (sys : System) (dt : number) (rt : Runtime G) : Runtime G :=
  match sys with
  | SInput s =>
      let '(es, g) := updateEntities s (entities (world rt)) (game rt) in
      {| world := {| entities := es; pendingDestroy := pendingDestroy (world rt) |};
         game := g;
         events := events rt |}
  | SLifespan ended =>
      withEntities (clearEndedEntities ended (entities (world rt))) [] rt
  | SDamage hits =>
      let '(es, ev) := applyHits hits (entities (world rt)) in
      withEntities es ev rt
  | SHealth =>
      let '(es, ev, ds) := resolveEntities dt (entities (world rt)) in
      {| world := {| entities := es;
                     pendingDestroy := pendingDestroy (world rt) ++ ds |};
         game := game rt;
         events := events rt ++ ev |}
  end.

Definition flushRuntime (rt : Runtime G) : Runtime G :=
  {| world := flush (world rt); game := game rt; events := events rt |}.

Definition runSystems (systems : list System) (dt : number) (rt : Runtime G) : Runtime G :=
  foldl (λ rt sys, systemUpdate sys dt rt) rt systems.

(** Modelled from the spec: [World.update(deltaTime)] (engine, not among
    the source files) invokes each system's [update] in registration
    order, then flushes the deferred destroys. *)
Definition World_update (systems : list System) (dt : number) (rt : Runtime G) : Runtime G :=
  flushRuntime (runSystems systems dt rt).

(** Successive frames, each with its pipeline and its delta. *)
Definition runFrames (frames : list (list System * number)) (rt : Runtime G)
  : Runtime G :=
  foldl (λ rt f, World_update f.1 f.2 rt) rt frames.

(** The observable points of a run: a system's update or a flush takes
    the runtime from one to the next.  [allowed] restricts the systems
    that may run. *)
Inductive step (allowed : System → Prop) : Runtime G → Runtime G → Prop :=
| step_system sys dt rt :
    allowed sys → step allowed rt (systemUpdate sys dt rt)
| step_flush rt :
    step allowed rt (flushRuntime rt).
End Pipeline.

(** Attack [atk] is within its active window: no lifespan expiry clears
    it. *)
Definition attackActive (atk : string) (sys : System) : Prop :=
  match sys with
  | SLifespan ended => atk ∉ ended
  | _ => True
  end.

Definition anySystem (sys : System) : Prop := True.

(** ** The frame loop of Game.ts *)

(** [hitPauseService.update(rawDelta)] ([./services/HitPauseService]),
    taken as an interface over the service's state. *)
Class HitPauseService (P : Type) := {
  hitPauseUpdate : P → number → number * P
}.

(** A service that never dilates time. *)
Module NoHitPause.
#[global] Instance service : HitPauseService unit := {
  hitPauseUpdate p rawDelta := (rawDelta, p)
}.
End NoHitPause.

(** The calls [animate] makes on its collaborators. *)
Inductive FrameAction :=
| CallWorldUpdate (delta : number)
| CallMinimapUpdate
| CallRender
| CallRequestAnimationFrame.

Section Animate.
Context {P : Type} `{HitPauseService P}.
Context {W : Type}.
(** [world.update], applied to whatever the world holds. *)
Variable worldUpdate : number → W → W.

Record Loop := mkLoop {
  hitPause : P;
  loopWorld : W;
  actions : list FrameAction
}.

(** Lines 167-178.  [rawDelta] is [clock.getDelta()]. *)
Definition animate (rawDelta : number) (l : Loop) : Loop :=
  let '(delta, p) := hitPauseUpdate (hitPause l) rawDelta in
  let l1 :=
    if ltb 0 delta
    then {| hitPause := p;
            loopWorld := worldUpdate delta (loopWorld l);
            actions := actions l ++ [CallWorldUpdate delta; CallMinimapUpdate] |}
    else {| hitPause := p; loopWorld := loopWorld l; actions := actions l |} in
  {| hitPause := hitPause l1;
     loopWorld := loopWorld l1;
     actions := actions l1 ++ [CallRender; CallRequestAnimationFrame] |}.

(** The actions of the frame alone. *)
Definition frameActions (rawDelta : number) (l : Loop) : list FrameAction :=
  drop (length (actions l)) (actions (animate rawDelta l)).
End Animate.
Arguments Loop P W : clear implicits.
Arguments mkLoop {P W} _ _ _.
Arguments hitPause {P W} _.
Arguments loopWorld {P W} _.
Arguments actions {P W} _.

(** ** What the properties speak about *)

(** [0 <= current <= max] *)
Definition healthInv (h : HealthComponent) : Prop :=
  (0 <= current h)%Qc ∧ (current h <= max h)%Qc.

(** Every Health component of the store is within its bounds. *)
Definition entityInv (e : Entity) : Prop :=
  ∀ h, health e = Some h → healthInv h.

Definition storeInv (es : Entities) : Prop :=
  Forall (λ p : EntityId * Entity, entityInv p.2) es.

(** The accepted damage applications of attack [atk] on entity [id]. *)
Definition isDamageOf (id : EntityId) (atk : string) (ev : Event) : bool :=
  match ev with
  | Damaged t a _ => Nat.eqb t id && String.eqb a atk
  | OnDeath _ _ => false
  end.

Definition damageCount (id : EntityId) (atk : string) (evs : list Event) : nat :=
  length (List.filter (isDamageOf id atk) evs).

(** The [onDeath] calls of entity [id]. *)
Definition isDeathOf (id : EntityId) (ev : Event) : bool :=
  match ev with
  | OnDeath t _ => Nat.eqb t id
  | Damaged _ _ _ => false
  end.

Definition deathCount (id : EntityId) (evs : list Event) : nat :=
  length (List.filter (isDeathOf id) evs).

(** Attack [atk] is recorded in the [recentlyHitBy] set of entity [id], if
    the entity has a Health component at all. *)
Definition recorded (atk : string) (id : EntityId) (es : Entities) : Prop :=
  ∀ h, healthOf id es = Some h → alreadyHitBy atk h = true.

(** Entity [id] is Dead, if it has a Health component at all. *)
Definition deadIfPresent (id : EntityId) (es : Entities) : Prop :=
  ∀ h, healthOf id es = Some h → isDead h = true.





(** ** Concrete inputs *)

(** Held-key snapshots. *)
Definition noKeys : InputSystem := {| keys := ∅ |}.
Definition spaceHeld : InputSystem := keydown "Space" noKeys.
Definition spaceReleased : InputSystem := keyup "Space" spaceHeld.
Definition escapeHeld : InputSystem := keydown "Escape" noKeys.
Definition movingHeld : InputSystem :=
  keydown "ShiftRight" (keydown "ArrowLeft" (keydown "KeyW" noKeys)).

(** An Input component as a factory leaves it: nothing pressed. *)
Definition idleInput : InputComponent :=
  {| up := false; down := false; left := false; right := false;
     attack := false; dash := false;
     attackPressedLastFrame := false;
     dashPressedLastFrame := false;
     pausePressedLastFrame := false |}.

(** Space pressed on the first frame, held, and released by the fourth. *)
Definition scenarioD : list InputSystem :=
  [spaceHeld; spaceHeld; spaceHeld; spaceReleased].

Definition player : Entity := {| input := Some idleInput; health := None |}.

Definition onePlayer : Entities := [(0, player)].
Definition twoPlayers : Entities := [(0, player); (1, player)].


Definition runtimeOf (es : Entities) (g : string) : Runtime string :=
  {| world := {| entities := es; pendingDestroy := [] |};
     game := g;
     events := [] |}.

(** [world.update] when the pipeline is the input system alone, on the
    store and the [gameState] string. *)
Definition inputOnlyUpdate (s : InputSystem) (delta : Qc)
    (st : Entities * string) : Entities * string :=
  updateEntities s st.1 st.2.

(** A paused game at the start of a frame on which Escape is held. *)
Definition pausedLoop : Loop unit (Entities * string) :=
  {| hitPause := tt; loopWorld := (onePlayer, "paused"%string); actions := [] |}.

(** An enemy with three points of health left, and a hit of five. *)
Definition wounded : HealthComponent :=
  {| current := num 3 1; max := num 10 1; pendingDamage := 0;
     recentlyHitBy := None;
     invulnerableCooldown := Some (num 1 2);
     invulnerableRemaining := 0;
     onDeath := Some "dropLoot"%string |}.

(** The entity of scenarios A and B: full health, half a second of grace. *)
Definition fresh : HealthComponent :=
  {| current := num 10 1; max := num 10 1; pendingDamage := 0;
     recentlyHitBy := None;
     invulnerableCooldown := Some (num 1 2);
     invulnerableRemaining := 0;
     onDeath := None |}.

Definition arena : Entities :=
  [(0, player);
   (7, {| input := None; health := Some wounded |});
   (8, {| input := None; health := Some fresh |})].

Definition fatalHit : Hit := {| target := 7; attackId := "a1"; damage := num 5 1 |}.
Definition hitA1 : Hit := {| target := 8; attackId := "a1"; damage := num 4 1 |}.
Definition hitA2 : Hit := {| target := 8; attackId := "a2"; damage := num 4 1 |}.

(** A frame in the registration order of Game.ts with the given overlaps,
    and two such frames during which attack a1 keeps overlapping entity 8
    (twice on the first frame). *)
Definition combatFrame (hits : list Hit) : list System * Qc :=
  ([SInput noKeys; SLifespan ∅; SDamage hits; SHealth], num 1 60).

Definition lingeringAttack : list (list System * Qc) :=
  [combatFrame [hitA1; hitA1]; combatFrame [hitA1]].

(** The fresh entity after attack a1 was accepted for four points, before
    and after the health resolution of that frame. *)
Definition struck : HealthComponent :=
  {| current := num 10 1; max := num 10 1; pendingDamage := num 4 1;
     recentlyHitBy := Some {["a1"%string]};
     invulnerableCooldown := Some (num 1 2);
     invulnerableRemaining := 0;
     onDeath := None |}.

Definition graced : HealthComponent := (resolveHealth (num 1 60) struck).1.

(** ** More of InputSystem.ts: the key listeners (lines 11-12) *)

(** A [keydown] or [keyup] event of the window, with its [e.code]. *)
Inductive KeyEvent :=
| KeyDown (code : string)
| KeyUp (code : string).

Definition eventCode (ev : KeyEvent) : string :=
  match ev with KeyDown c => c | KeyUp c => c end.

Definition isKeyDown (ev : KeyEvent) : bool :=
  match ev with KeyDown _ => true | KeyUp _ => false end.

(** The listener that the event reaches. *)
Definition handleKey (ev : KeyEvent) (s : InputSystem) : InputSystem :=
  match ev with
  | KeyDown c => keydown c s
  | KeyUp c => keyup c s
  end.

(** The events that arrive between two updates, oldest first. *)
Definition dispatch (evs : list KeyEvent) (s : InputSystem) : InputSystem :=
  foldl (λ s ev, handleKey ev s) s evs.

(** The most recent event of key [c], if there is one: [Some true] for a
    [keydown]. *)
Fixpoint lastEvent (c : string) (evs : list KeyEvent) : option bool :=
  match evs with
  | [] => None
  | ev :: rest =>
      match lastEvent c rest with
      | Some b => Some b
      | None => if String.eqb (eventCode ev) c then Some (isKeyDown ev) else None
      end
  end.

(** The key codes that [InputSystem.update] looks up (lines 20-42). *)
Definition boundCodes : list string :=
  ["Escape"; "ShiftLeft"; "ShiftRight"; "KeyW"; "ArrowUp"; "KeyS";
   "ArrowDown"; "KeyA"; "ArrowLeft"; "KeyD"; "ArrowRight"; "Space"]%string.

(** What the loop of [update] makes of one store entry. *)
Definition updatedEntry (s : InputSystem) (p : EntityId * Entity) : EntityId * Entity :=
  (p.1, {| input := updateInput s <$> input p.2; health := health p.2 |}).

(** Every Input component of the store is settled for the keys. *)
Definition allSettled (s : InputSystem) (es : Entities) : Prop :=
  Forall (λ p : EntityId * Entity, ∀ i, input p.2 = Some i → settled s i) es.

(** [currentGameState() === 'playing'] *)
Definition isPlaying `{GameController G} (g : G) : bool :=
  String.eqb (currentGameState g) "playing".

(** ** More of Game.ts: the frame loop over many frames *)

(** The calls of one frame whose delta, after the hit-pause service, is
    [delta] (lines 171-177). *)
Definition frameCalls (delta : Qc) : list FrameAction :=
  (if ltb 0 delta then [CallWorldUpdate delta; CallMinimapUpdate] else [])
    ++ [CallRender; CallRequestAnimationFrame].

Definition isWorldUpdate (a : FrameAction) : bool :=
  match a with CallWorldUpdate _ => true | _ => false end.

Definition isMinimapUpdate (a : FrameAction) : bool :=
  match a with CallMinimapUpdate => true | _ => false end.

Definition isRender (a : FrameAction) : bool :=
  match a with CallRender => true | _ => false end.

Definition isRequest (a : FrameAction) : bool :=
  match a with CallRequestAnimationFrame => true | _ => false end.

(** The animation-frame part of the browser: [requestAnimationFrame]
    hands out the next handle and queues it, [cancelAnimationFrame] takes
    the handle off the queue. *)
Record Browser := mkBrowser {
  nextHandle : nat;
  pendingFrames : list nat
}.

Definition requestAnimationFrame (b : Browser) : nat * Browser :=
  (nextHandle b,
   {| nextHandle := S (nextHandle b);
      pendingFrames := pendingFrames b ++ [nextHandle b] |}).

Definition cancelAnimationFrame (h : nat) (b : Browser) : Browser :=
  {| nextHandle := nextHandle b;
     pendingFrames := List.filter (λ h', negb (Nat.eqb h' h)) (pendingFrames b) |}.

Section FrameLoop.
Context {P : Type} `{HitPauseService P} {W : Type}.
Variable worldUpdate : Qc → W → W.

(** Successive frames, one [clock.getDelta()] each. *)
Definition runLoop (raws : list Qc) (l : Loop P W) : Loop P W :=
  foldl (λ l raw, animate worldUpdate raw l) l raws.

(** The deltas that the hit-pause service returns over these frames. *)
Fixpoint scaledDeltas (p : P) (raws : list Qc) : list Qc :=
  match raws with
  | [] => []
  | raw :: rest =>
      (hitPauseUpdate p raw).1 :: scaledDeltas (hitPauseUpdate p raw).2 rest
  end.

(** [initGame]'s loop with its [animationFrameId] variable (line 162,
    unassigned until the first [animate]) and the browser's queue. *)
Record FrameLoop := mkFrameLoop {
  frames : Loop P W;
  animationFrameId : option nat;
  browser : Browser
}.

(** [animate], with the assignment of line 177. *)
Definition animateCallback (raw : Qc) (fl : FrameLoop) : FrameLoop :=
  let '(h, b) := requestAnimationFrame (browser fl) in
  {| frames := animate worldUpdate raw (frames fl);
     animationFrameId := Some h;
     browser := b |}.

(** The browser runs the callback queued under handle [h], if it is
    queued: the handle leaves the queue and [animate] runs. *)
Definition fireFrame (h : nat) (raw : Qc) (fl : FrameLoop) : FrameLoop :=
  if existsb (Nat.eqb h) (pendingFrames (browser fl))
  then animateCallback raw
         {| frames := frames fl;
            animationFrameId := animationFrameId fl;
            browser := cancelAnimationFrame h (browser fl) |}
  else fl.

Definition fireFrames (fs : list (nat * Qc)) (fl : FrameLoop) : FrameLoop :=
  foldl (λ fl f, fireFrame f.1 f.2 fl) fl fs.

(** Line 193 of the cleanup: [cancelAnimationFrame(animationFrameId)]. *)
Definition cancelLoop (fl : FrameLoop) : FrameLoop :=
  match animationFrameId fl with
  | Some h => {| frames := frames fl;
                 animationFrameId := animationFrameId fl;
                 browser := cancelAnimationFrame h (browser fl) |}
  | None => fl
  end.
End FrameLoop.
Arguments FrameLoop P W : clear implicits.
Arguments mkFrameLoop {P W} _ _ _.
Arguments frames {P W} _.
Arguments animationFrameId {P W} _.
Arguments browser {P W} _.

(** Exactly one request is queued, and [animationFrameId] holds its
    handle. *)
Definition oneRequestPending {P W : Type} (fl : FrameLoop P W) : Prop :=
  ∃ h, animationFrameId fl = Some h ∧ pendingFrames (browser fl) = [h].

(** ** Key events and frames together

    What happens to a running game whose pipeline is the input system: the
    browser delivers a key event to the listeners, or it runs a frame. *)
Inductive Happening :=
| Tick (raw : Qc)
| Key (ev : KeyEvent).

Definition keyEventOf (hp : Happening) : list KeyEvent :=
  match hp with Tick _ => [] | Key ev => [ev] end.

Section Session.
Context {P : Type} `{HitPauseService P} {G : Type} `{GameController G}.

(** [world.update] runs the input system on the store and the controller;
    the system itself keeps its key set. *)
Definition sessionUpdate (delta : Qc) (w : InputSystem * (Entities * G))
  : InputSystem * (Entities * G) :=
  (w.1, updateEntities w.1 w.2.1 w.2.2).

Definition happen (hp : Happening) (l : Loop P (InputSystem * (Entities * G)))
  : Loop P (InputSystem * (Entities * G)) :=
  match hp with
  | Tick raw => animate sessionUpdate raw l
  | Key ev =>
      {| hitPause := hitPause l;
         loopWorld := (handleKey ev (loopWorld l).1, (loopWorld l).2);
         actions := actions l |}
  end.

Definition runSession (hps : list Happening) (l : Loop P (InputSystem * (Entities * G)))
  : Loop P (InputSystem * (Entities * G)) :=
  foldl (λ l hp, happen hp l) l hps.

(** Every frame among [hps] gets a delta that is not positive, the
    hit-pause service starting in state [p]. *)
Fixpoint allFrozen (p : P) (hps : list Happening) : Prop :=
  match hps with
  | [] => True
  | Tick raw :: rest =>
      ((hitPauseUpdate p raw).1 <= 0)%Qc ∧ allFrozen (hitPauseUpdate p raw).2 rest
  | Key _ :: rest => allFrozen p rest
  end.
End Session.

(** ** More of Game.ts: listeners, and the cleanup of the scene *)

(** The window's listener list.  A listener is a closure; closures are
    numbered in the order they are created.  [addEventListener] ignores a
    listener that is already registered for the type. *)
Record Window := mkWindow {
  nextClosure : nat;
  listeners : list (string * nat)
}.

Definition sameListener (ty : string) (f : nat) (l : string * nat) : bool :=
  String.eqb l.1 ty && Nat.eqb l.2 f.

Definition addEventListener (ty : string) (f : nat) (w : Window) : Window :=
  {| nextClosure := nextClosure w;
     listeners := if existsb (sameListener ty f) (listeners w) then listeners w
                  else listeners w ++ [(ty, f)] |}.

Definition removeEventListener (ty : string) (f : nat) (w : Window) : Window :=
  {| nextClosure := nextClosure w;
     listeners := List.filter (λ l, negb (sameListener ty f l)) (listeners w) |}.

(** A new closure. *)
Definition newClosure (w : Window) : nat * Window :=
  (nextClosure w, {| nextClosure := S (nextClosure w); listeners := listeners w |}).

(** [new InputSystem()] (lines 9-13, called at line 134): two arrow
    functions, registered for [keydown] and [keyup]. *)
Definition constructInputSystem (w : Window) : Window :=
  let '(down, w1) := newClosure w in
  let w2 := addEventListener "keydown" down w1 in
  let '(up, w3) := newClosure w2 in
  addEventListener "keyup" up w3.

(** What [initGame] does to the window (lines 134, 180-187); the result
    carries [onResize], which the returned cleanup closes over. *)
Definition initGameListeners (w : Window) : nat * Window :=
  let w1 := constructInputSystem w in
  let '(onResize, w2) := newClosure w1 in
  (onResize, addEventListener "resize" onResize w2).

(** Line 194 of the cleanup. *)
Definition cleanupListeners (onResize : nat) (w : Window) : Window :=
  removeEventListener "resize" onResize w.

(** [n] times [initGame] followed by its cleanup. *)
Fixpoint playAndLeave (n : nat) (w : Window) : Window :=
  match n with
  | O => w
  | S n =>
      let '(onResize, w1) := initGameListeners w in
      playAndLeave n (cleanupListeners onResize w1)
  end.

Definition listenersOf (ty : string) (w : Window) : nat :=
  length (List.filter (λ l : string * nat, String.eqb l.1 ty) (listeners w)).

(** Every registered listener is a closure that has been created. *)
Definition wfWindow (w : Window) : Prop :=
  Forall (λ l : string * nat, l.2 < nextClosure w) (listeners w).

(** A geometry or a material: the object's identity, and whether it has a
    [dispose] method ([dispose?.()] calls it only then). *)
Record Disposable := mkDisposable {
  resource : nat;
  hasDispose : bool
}.

(** [object.material]: absent, one material, or an array of materials. *)
Inductive MaterialSlot :=
| NoMaterial
| SingleMaterial (m : Disposable)
| MaterialArray (ms : list Disposable).

(** A node of the scene graph. *)
#[local] Unset Elimination Schemes.
Inductive Object3D :=
| Object (geometry : option Disposable) (material : MaterialSlot)
         (children : list Object3D).
#[local] Set Elimination Schemes.

(** Induction over the scene graph: the children of a node satisfy the
    hypothesis. *)
Fixpoint Object3D_ind (Q : Object3D → Prop)
    (step : ∀ g m cs, Forall Q cs → Q (Object g m cs)) (o : Object3D) : Q o :=
  match o with
  | Object g m cs =>
      step g m cs
        ((fix all (cs : list Object3D) : Forall Q cs :=
            match cs with
            | [] => Forall_nil Q
            | c :: rest => Forall_cons Q c rest (Object3D_ind Q step c) (all rest)
            end) cs)
  end.

Definition geometryOf (o : Object3D) : option Disposable :=
  match o with Object g _ _ => g end.

Definition materialOf (o : Object3D) : MaterialSlot :=
  match o with Object _ m _ => m end.

Definition childrenOf (o : Object3D) : list Object3D :=
  match o with Object _ _ cs => cs end.

Inductive DisposeCall :=
| GeometryDispose (r : nat)
| MaterialDispose (r : nat).

Definition disposeIfCan (call : nat → DisposeCall) (d : Disposable) : list DisposeCall :=
  if hasDispose d then [call (resource d)] else [].

(** The callback of lines 203-215. *)
Definition disposeCallback (o : Object3D) : list DisposeCall :=
  (match geometryOf o with
   | Some g => disposeIfCan GeometryDispose g
   | None => []
   end)
  ++ (match materialOf o with
      | NoMaterial => []
      | SingleMaterial m => disposeIfCan MaterialDispose m
      | MaterialArray ms => flat_map (disposeIfCan MaterialDispose) ms
      end).

(** [Object3D.traverse]: the callback on the object, then on each child's
    subtree in order. *)
Fixpoint traverse {A : Type} (callback : Object3D → list A) (o : Object3D) : list A :=
  match o with
  | Object g m cs => callback o ++ flat_map (traverse callback) cs
  end.

Definition disposeScene (scene : Object3D) : list DisposeCall :=
  traverse disposeCallback scene.

(** [o] is [scene] or one of its descendants. *)
Inductive inGraph : Object3D → Object3D → Prop :=
| inGraph_self o : inGraph o o
| inGraph_child g m cs c o : In c cs → inGraph c o → inGraph (Object g m cs) o.

(** [scene.remove(object)] on the list of children, by identity:
    [indexOf] and [splice]. *)
Fixpoint removeObject (x : nat) (cs : list nat) : list nat :=
  match cs with
  | [] => []
  | c :: rest => if Nat.eqb c x then rest else c :: removeObject x rest
  end.

(** Lines 217-219: [while (scene.children.length > 0)
    scene.remove(scene.children[0])].  The result is the objects removed,
    in order; [None] when the iterations allowed do not suffice. *)
Fixpoint removeAllChildren (fuel : nat) (cs : list nat) : option (list nat) :=
  match cs with
  | [] => Some []
  | c :: _ =>
      match fuel with
      | O => None
      | S fuel => (λ removed, c :: removed) <$> removeAllChildren fuel (removeObject c cs)
      end
  end.

(** * Properties *)

(** ** InputSystem: what one update does to the store *)

Section InputFacts.
Context {G : Type} `{GameController G}.

Lemma updateEntity_fst s e g1 g2 :
  (updateEntity s e g1).1 = (updateEntity s e g2).1.
Proof. unfold updateEntity. by destruct (input e). Qed.

Lemma getEntity_updateEntities s es g id :
  getEntity id (updateEntities s es g).1
  = (λ e, (updateEntity s e g).1) <$> getEntity id es.
Proof.
  revert g. induction es as [|[i e] rest IH]; intros g; simpl; [done|].
  destruct (updateEntity s e g) as [e' g1] eqn:He.
  destruct (updateEntities s rest g1) as [rest' g2] eqn:Hr. simpl.
  destruct (Nat.eqb i id).
  - simpl. by rewrite He.
  - specialize (IH g1). rewrite Hr in IH. simpl in IH. rewrite IH.
    destruct (getEntity id rest) as [e0|]; simpl; [|done].
    f_equal. apply updateEntity_fst.
Qed.

Lemma inputOf_updateEntities s es g id :
  inputOf id (updateEntities s es g).1 = updateInput s <$> inputOf id es.
Proof.
  unfold inputOf. rewrite getEntity_updateEntities.
  destruct (getEntity id es) as [e|]; cbn; [|done].
  unfold updateEntity. by destruct (input e) eqn:E.
Qed.

Lemma healthOf_updateEntities s es g id :
  healthOf id (updateEntities s es g).1 = healthOf id es.
Proof.
  unfold healthOf. rewrite getEntity_updateEntities.
  destruct (getEntity id es) as [e|]; cbn; [|done].
  unfold updateEntity. by destruct (input e) eqn:E.
Qed.

Lemma game_updateEntities s es g :
  (updateEntities s es g).2 = Nat.iter (escapeEdges s es) togglePause g.
Proof.
  revert g. induction es as [|[i e] rest IH]; intros g; simpl; [done|].
  destruct (updateEntity s e g) as [e' g1] eqn:He.
  specialize (IH g1).
  destruct (updateEntities s rest g1) as [rest' g2] eqn:Hr. simpl in *.
  subst g2. unfold escapeEdges. simpl.
  unfold updateEntity in He. unfold takesEscapeBranch.
  destruct (input e) as [i0|]; simplify_eq.
  - destruct (escapeEdge s i0); simpl; [|done].
    apply Nat.iter_swap.
  - done.
Qed.

Lemma inputFrames_snoc frames s st :
  inputFrames (frames ++ [s]) st
  = updateEntities s (inputFrames frames st).1 (inputFrames frames st).2.
Proof. unfold inputFrames. by rewrite foldl_app. Qed.

Lemma inputOf_inputFrames frames es g id :
  inputOf id (inputFrames frames (es, g)).1
  = (λ i, foldl (λ i s, updateInput s i) i frames) <$> inputOf id es.
Proof.
  induction frames as [|s frames IH] using rev_ind.
  - simpl. by destruct (inputOf id es).
  - rewrite inputFrames_snoc, inputOf_updateEntities, IH.
    destruct (inputOf id es); simpl; [|done]. by rewrite foldl_app.
Qed.
End InputFacts.

Lemma inputTrace_lookup frames i n :
  n < length frames →
  inputTrace frames i !! n
  = Some (foldl (λ i s, updateInput s i) i (take (S n) frames)).
Proof.
  revert i n. induction frames as [|s rest IH]; intros i n Hn; simpl in *; [lia|].
  destruct n as [|n]; simpl.
  - done.
  - apply IH. lia.
Qed.

Lemma inputTrace_length frames i : length (inputTrace frames i) = length frames.
Proof. revert i. induction frames; intros; simpl; auto. Qed.

(** The shadow flags after frame [n] are the key states of frame [n]. *)
Lemma inputTrace_edge frames i0 n s i :
  frames !! n = Some s →
  inputTrace frames i0 !! n = Some i →
  attack i = attackKeyDown s
             && negb (heldBefore attackKeyDown (attackPressedLastFrame i0) frames n) ∧
  dash i = dashKeyDown s
           && negb (heldBefore dashKeyDown (dashPressedLastFrame i0) frames n).
Proof.
  revert i0 n. induction frames as [|s0 rest IH]; intros i0 n Hs Hi; [done|].
  destruct n as [|n]; simpl in *.
  - by simplify_eq.
  - destruct (IH _ _ Hs Hi) as [Ha Hd]. rewrite Ha, Hd.
    destruct n as [|n]; simpl; [done|]. done.
Qed.

Lemma inputTrace_step frames i0 n i i' s :
  inputTrace frames i0 !! n = Some i →
  frames !! S n = Some s →
  inputTrace frames i0 !! S n = Some i' →
  i' = updateInput s i.
Proof.
  revert i0 n. induction frames as [|s0 rest IH]; intros i0 n Hi Hs Hi'; [done|].
  destruct n as [|n]; simpl in *.
  - destruct rest as [|s1 rest]; simpl in *; by simplify_eq.
  - eapply IH; eauto.
Qed.

(** ** C1: edge-triggered intents *)

(** C1.  Over any run of held-key snapshots, the Input component stored for
    an entity after frame [n] is the [n]-th component of the trace; its
    [attack] (resp. [dash]) flag is true exactly when the Space (resp.
    Shift) key is down on frame [n] and was not down on the frame before
    (before the first frame: according to the shadow flag).  Hence the flag
    is never true on two consecutive frames, never true on a frame where the
    key is up, and a press on the first of four frames that is held and then
    released by the fourth gives [true, false, false, false]. *)
Theorem edge_triggered_intents {G : Type} `{GameController G}
    (frames : list InputSystem) (es : Entities) (g : G)
    (id : EntityId) (i0 : InputComponent) :
  inputOf id es = Some i0 →
  (∀ n, n < length frames →
        inputOf id (inputFrames (take (S n) frames) (es, g)).1
        = inputTrace frames i0 !! n) ∧
  (∀ n s i, frames !! n = Some s → inputTrace frames i0 !! n = Some i →
        attack i = attackKeyDown s
                   && negb (heldBefore attackKeyDown (attackPressedLastFrame i0) frames n) ∧
        dash i = dashKeyDown s
                 && negb (heldBefore dashKeyDown (dashPressedLastFrame i0) frames n)) ∧
  (∀ n i i', inputTrace frames i0 !! n = Some i →
             inputTrace frames i0 !! S n = Some i' →
             attack i && attack i' = false ∧ dash i && dash i' = false) ∧
  (∀ n s i, frames !! n = Some s → inputTrace frames i0 !! n = Some i →
            (attackKeyDown s = false → attack i = false) ∧
            (dashKeyDown s = false → dash i = false)) ∧
  (∀ s1 s2 s3 s4, frames = [s1; s2; s3; s4] →
        attackPressedLastFrame i0 = false →
        attackKeyDown s1 = true → attackKeyDown s2 = true →
        attackKeyDown s4 = false →
        attack <$> inputTrace frames i0 = [true; false; false; false]).
Proof.
  intros Hid.
  assert (Hpair : ∀ n i i', inputTrace frames i0 !! n = Some i →
             inputTrace frames i0 !! S n = Some i' →
             ∃ s0 s, frames !! n = Some s0 ∧ frames !! S n = Some s).
  { intros n i i' _ Hi'.
    assert (Hlen : S n < length frames).
    { rewrite <- (inputTrace_length frames i0). by eapply lookup_lt_Some. }
    destruct (lookup_lt_is_Some_2 frames (S n) Hlen) as [s Hs].
    destruct (lookup_lt_is_Some_2 frames n ltac:(lia)) as [s0 Hs0].
    eauto. }
  split; [|split; [|split; [|split]]].
  - intros n Hn. rewrite inputOf_inputFrames, Hid. simpl.
    by rewrite inputTrace_lookup.
  - intros n s i Hs Hi. by eapply inputTrace_edge.
  - intros n i i' Hi Hi'.
    destruct (Hpair _ _ _ Hi Hi') as (s0 & s & Hs0 & Hs).
    destruct (inputTrace_edge _ _ _ _ _ Hs0 Hi) as [Ha Hd].
    destruct (inputTrace_edge _ _ _ _ _ Hs Hi') as [Ha' Hd'].
    rewrite Ha, Ha', Hd, Hd'. simpl. rewrite Hs0. simpl.
    split.
    + by destruct (attackKeyDown s0), (attackKeyDown s), (heldBefore attackKeyDown _ _ _).
    + by destruct (dashKeyDown s0), (dashKeyDown s), (heldBefore dashKeyDown _ _ _).
  - intros n s i Hs Hi.
    destruct (inputTrace_edge _ _ _ _ _ Hs Hi) as [Ha Hd].
    split; intros Hup; [rewrite Ha | rewrite Hd]; by rewrite Hup.
  - intros s1 s2 s3 s4 -> Hshadow Hd1 Hd2 Hd4. simpl.
    unfold attackKeyDown in *.
    rewrite Hshadow, Hd1, Hd2, Hd4. simpl. by rewrite andb_false_r.
Qed.

Lemma edge_triggered_intents_witness :
  attack <$> inputTrace scenarioD idleInput = [true; false; false; false].
Proof.
  apply (proj2 (proj2 (proj2 (proj2
    (@edge_triggered_intents _ StringController.controller
       scenarioD onePlayer "playing"%string 0 idleInput eq_refl))))
    spaceHeld spaceHeld spaceHeld spaceReleased);
    vm_compute; reflexivity.
Defined.

(** Reading the four labels released, pressed, held, released as the key
    states of the four frames themselves moves the single [true] to the
    second frame. *)
Example press_on_second_frame :
  attack <$> inputTrace [noKeys; spaceHeld; spaceHeld; spaceReleased] idleInput
  = [false; true; false; false].
Proof. vm_compute. reflexivity. Qed.

(** ** C8: the shadow flags *)

(** C8.  After an update, the Input component stored for an entity has
    [attackPressedLastFrame] equal to whether Space is held and
    [dashPressedLastFrame] equal to whether a Shift key is held, whatever
    the component held before and whether or not [attack] or [dash] fired;
    the two flags are written independently of each other. *)
Theorem shadow_flags_follow_keys {G : Type} `{GameController G}
    (s : InputSystem) (es : Entities) (g : G)
    (id : EntityId) (i : InputComponent) :
  inputOf id es = Some i →
  ∃ i', inputOf id (updateEntities s es g).1 = Some i' ∧
        attackPressedLastFrame i' = attackKeyDown s ∧
        dashPressedLastFrame i' = dashKeyDown s.
Proof.
  intros Hid. exists (updateInput s i).
  rewrite inputOf_updateEntities, Hid. done.
Qed.

Lemma shadow_flags_follow_keys_witness :
  ∃ i', inputOf 1 (updateEntities (G:=StringController.state)
                     movingHeld twoPlayers "playing"%string).1 = Some i' ∧
        attackPressedLastFrame i' = attackKeyDown movingHeld ∧
        dashPressedLastFrame i' = dashKeyDown movingHeld.
Proof.
  apply (@shadow_flags_follow_keys _ StringController.controller
           movingHeld twoPlayers "playing"%string 1 idleInput).
  reflexivity.
Defined.

(** ** C9: level-triggered directions *)

(** C9.  After an update, each directional intent of the stored Input
    component equals whether one of its two bound keys is in the held-key
    set; so on every frame of a run on which such a key is held the intent
    is true, however many frames it has been held. *)
Theorem directions_level_triggered {G : Type} `{GameController G}
    (s : InputSystem) (es : Entities) (g : G)
    (id : EntityId) (i : InputComponent) :
  inputOf id es = Some i →
  (∃ i', inputOf id (updateEntities s es g).1 = Some i' ∧
         up i' = (has s "KeyW" || has s "ArrowUp") ∧
         down i' = (has s "KeyS" || has s "ArrowDown") ∧
         left i' = (has s "KeyA" || has s "ArrowLeft") ∧
         right i' = (has s "KeyD" || has s "ArrowRight")) ∧
  (∀ frames n f j, frames !! n = Some f →
         inputTrace frames i !! n = Some j →
         up j = (has f "KeyW" || has f "ArrowUp") ∧
         down j = (has f "KeyS" || has f "ArrowDown") ∧
         left j = (has f "KeyA" || has f "ArrowLeft") ∧
         right j = (has f "KeyD" || has f "ArrowRight")).
Proof.
  intros Hid. split.
  - exists (updateInput s i). rewrite inputOf_updateEntities, Hid. done.
  - intros frames. clear Hid. revert i.
    induction frames as [|f0 rest IH]; intros i n f j Hf Hj; [done|].
    destruct n as [|n]; simpl in *.
    + by simplify_eq.
    + eapply (IH (updateInput f0 i)); eauto.
Qed.

Lemma directions_level_triggered_witness :
  (∃ i', inputOf 0 (updateEntities (G:=StringController.state)
                      movingHeld onePlayer "playing"%string).1 = Some i' ∧
         up i' = true ∧ down i' = false ∧ left i' = true ∧ right i' = false) ∧
  up <$> inputTrace [movingHeld; movingHeld; movingHeld; noKeys] idleInput
  = [true; true; true; false].
Proof.
  destruct (@directions_level_triggered _ StringController.controller
              movingHeld onePlayer "playing"%string 0 idleInput eq_refl)
    as [(i' & Hi' & Hu & Hd & Hl & Hr) Hrun].
  split.
  - exists i'. rewrite Hu, Hd, Hl, Hr. split; [exact Hi'|].
    vm_compute. auto.
  - pose (frames := [movingHeld; movingHeld; movingHeld; noKeys]).
    destruct (Hrun frames 2 movingHeld _ eq_refl eq_refl) as [H2 _].
    vm_compute. reflexivity.
Defined.

(** ** C10: the Escape toggle runs once per Input-holding entity *)

Lemma escapeEdges_cons s i e rest :
  escapeEdges s ((i, e) :: rest)
  = (if takesEscapeBranch s e then 1 else 0) + escapeEdges s rest.
Proof. unfold escapeEdges. simpl. by destruct (takesEscapeBranch s e). Qed.

Lemma inputHolders_cons i e rest :
  inputHolders ((i, e) :: rest)
  = (if hasInput e then 1 else 0) + inputHolders rest.
Proof. unfold inputHolders. simpl. by destruct (hasInput e). Qed.

Section EscapeToggle.
Context {G : Type} `{GameController G}.

Lemma updateEntities_cons s i e rest g :
  (updateEntities s ((i, e) :: rest) g).1
  = (i, (updateEntity s e g).1)
      :: (updateEntities s rest (updateEntity s e g).2).1.
Proof.
  simpl. destruct (updateEntity s e g) as [e' g1]. simpl.
  destruct (updateEntities s rest g1). reflexivity.
Qed.

Lemma hasInput_updateEntity s e g :
  hasInput (updateEntity s e g).1 = hasInput e.
Proof.
  unfold updateEntity, hasInput. destruct (input e) eqn:E; simpl; by rewrite ?E.
Qed.

Lemma takesEscapeBranch_updateEntity s s' e g :
  takesEscapeBranch s' (updateEntity s e g).1
  = hasInput e && (escapeDown s' && negb (escapeDown s)).
Proof.
  unfold updateEntity, hasInput, takesEscapeBranch.
  destruct (input e) eqn:E; simpl; by rewrite ?E.
Qed.

Lemma inputHolders_updateEntities s es g :
  inputHolders (updateEntities s es g).1 = inputHolders es.
Proof.
  revert g. induction es as [|[i e] rest IH]; intros g; [done|].
  rewrite updateEntities_cons, !inputHolders_cons, IH.
  by rewrite hasInput_updateEntity.
Qed.

(** After an update with keys [s], the flags that guard the toggle are
    the state of Escape in [s], in every entity. *)
Lemma escapeEdges_after_update s s' es g :
  escapeEdges s' (updateEntities s es g).1
  = if escapeDown s' && negb (escapeDown s) then inputHolders es else 0.
Proof.
  revert g. induction es as [|[i e] rest IH]; intros g.
  - simpl. by destruct (escapeDown s' && negb (escapeDown s)).
  - rewrite updateEntities_cons, escapeEdges_cons, inputHolders_cons, IH.
    rewrite takesEscapeBranch_updateEntity.
    by destruct (hasInput e), (escapeDown s' && negb (escapeDown s)).
Qed.
End EscapeToggle.

(** C10.  One update applies the pause/resume toggle once for each entity
    that holds an Input component and whose own [pausePressedLastFrame] is
    not set while Escape is down.  So when Escape was up on the previous
    update and is down on this one, the toggle is applied as many times as
    there are Input-holding entities (once when there is exactly one), all
    within that update, and a following update with Escape still down
    applies none. *)
Theorem escape_toggle_per_entity {G : Type} `{GameController G}
    (s : InputSystem) (es : Entities) (g : G) :
  (updateEntities s es g).2 = Nat.iter (escapeEdges s es) togglePause g ∧
  (∀ released pressed,
      escapeDown released = false → escapeDown pressed = true →
      let st1 := updateEntities released es g in
      let st2 := updateEntities pressed st1.1 st1.2 in
      st2.2 = Nat.iter (inputHolders es) togglePause st1.2 ∧
      (inputHolders es = 1 → st2.2 = togglePause st1.2) ∧
      (∀ held, escapeDown held = true →
               (updateEntities held st2.1 st2.2).2 = st2.2)).
Proof.
  split; [apply game_updateEntities|].
  intros released pressed Hup Hdown st1 st2.
  assert (Hst2 : st2.2 = Nat.iter (inputHolders es) togglePause st1.2).
  { subst st2. rewrite game_updateEntities. subst st1.
    by rewrite escapeEdges_after_update, Hup, Hdown. }
  split; [exact Hst2|]. split.
  - intros Hone. by rewrite Hst2, Hone.
  - intros held Hheld. rewrite game_updateEntities. subst st2.
    by rewrite escapeEdges_after_update, Hheld, Hdown.
Qed.

Lemma escape_toggle_per_entity_witness :
  let st1 := updateEntities (G:=StringController.state)
               noKeys twoPlayers "playing"%string in
  let st2 := updateEntities escapeHeld st1.1 st1.2 in
  st2.2 = Nat.iter 2 togglePause "playing"%string ∧
  st2.2 = "playing"%string ∧
  (updateEntities escapeHeld st2.1 st2.2).2 = st2.2.
Proof.
  destruct (@escape_toggle_per_entity _ StringController.controller
              noKeys twoPlayers "playing"%string) as [_ Hpress].
  destruct (Hpress noKeys escapeHeld eq_refl eq_refl) as (Hn & _ & Hheld).
  split; [exact Hn|]. split; [vm_compute; reflexivity|].
  apply Hheld. reflexivity.
Defined.

(** With a single Input-holding entity the same press pauses the game. *)
Example one_player_press_pauses :
  (updateEntities (G:=StringController.state) escapeHeld
     (updateEntities (G:=StringController.state)
        noKeys onePlayer "playing"%string).1 "playing"%string).2
  = "paused"%string.
Proof. vm_compute. reflexivity. Qed.

(** ** Comparisons *)

Lemma ltb_lt (a b : number) : ltb a b = true ↔ (a < b)%Qc.
Proof.
  unfold ltb. rewrite Qclt_alt. destruct (a ?= b)%Qc; split; congruence.
Qed.

Lemma ltb_ge (a b : number) : ltb a b = false ↔ (b <= a)%Qc.
Proof.
  rewrite <- not_true_iff_false, ltb_lt. split.
  - apply Qcnot_lt_le.
  - apply Qcle_not_lt.
Qed.

Lemma leb_le (a b : number) : leb a b = true ↔ (a <= b)%Qc.
Proof.
  unfold leb. rewrite Qcle_alt. destruct (a ?= b)%Qc; split; congruence.
Qed.

Lemma leb_gt (a b : number) : leb a b = false ↔ (b < a)%Qc.
Proof.
  rewrite <- not_true_iff_false, leb_le. split.
  - apply Qcnot_le_lt.
  - apply Qclt_not_le.
Qed.

Lemma ltb_irrefl (a : number) : ltb a a = false.
Proof. apply ltb_ge, Qcle_refl. Qed.

(** ** C7: the frame loop and a zero delta *)

Section AnimateFacts.
Context {P : Type} `{HitPauseService P} {W : Type}.
Variable worldUpdate : number → W → W.

Lemma frameActions_eq rawDelta (l : Loop P W) :
  frameActions worldUpdate rawDelta l
  = (if ltb 0 (hitPauseUpdate (hitPause l) rawDelta).1
     then [CallWorldUpdate (hitPauseUpdate (hitPause l) rawDelta).1;
           CallMinimapUpdate]
     else [])
    ++ [CallRender; CallRequestAnimationFrame].
Proof.
  unfold frameActions, animate.
  destruct (hitPauseUpdate (hitPause l) rawDelta) as [delta p]. simpl.
  destruct (ltb 0 delta); simpl.
  - by rewrite <- app_assoc, drop_app_length.
  - by rewrite drop_app_length.
Qed.

Lemma loopWorld_animate rawDelta (l : Loop P W) :
  loopWorld (animate worldUpdate rawDelta l)
  = if ltb 0 (hitPauseUpdate (hitPause l) rawDelta).1
    then worldUpdate (hitPauseUpdate (hitPause l) rawDelta).1 (loopWorld l)
    else loopWorld l.
Proof.
  unfold animate.
  destruct (hitPauseUpdate (hitPause l) rawDelta) as [delta p]. simpl.
  by destruct (ltb 0 delta).
Qed.
End AnimateFacts.

(** C7, as the code has it.  A frame calls [World.update] exactly when the
    delta that the hit-pause service returns is positive, and passes that
    delta; on every other frame, in particular on a frame whose delta is
    zero, [World.update] and [minimap.update] are not called at all, the
    world is left exactly as it was, and the frame is still rendered and
    the next one requested.  No frame ever passes a zero delta to
    [World.update]. *)
Theorem animate_calls_update_only_on_positive_delta
    {P : Type} `{HitPauseService P} {W : Type}
    (worldUpdate : number → W → W) (rawDelta : number) (l : Loop P W) :
  let delta := (hitPauseUpdate (hitPause l) rawDelta).1 in
  (if ltb 0 delta
   then loopWorld (animate worldUpdate rawDelta l)
        = worldUpdate delta (loopWorld l) ∧
        frameActions worldUpdate rawDelta l
        = [CallWorldUpdate delta; CallMinimapUpdate;
           CallRender; CallRequestAnimationFrame]
   else loopWorld (animate worldUpdate rawDelta l) = loopWorld l ∧
        frameActions worldUpdate rawDelta l
        = [CallRender; CallRequestAnimationFrame]) ∧
  (delta = 0%Qc →
     loopWorld (animate worldUpdate rawDelta l) = loopWorld l ∧
     frameActions worldUpdate rawDelta l
     = [CallRender; CallRequestAnimationFrame]) ∧
  (∀ d, In (CallWorldUpdate d) (frameActions worldUpdate rawDelta l) →
        (0 < d)%Qc).
Proof.
  intros delta. rewrite frameActions_eq, loopWorld_animate. fold delta.
  split; [|split].
  - by destruct (ltb 0 delta).
  - intros ->. by rewrite ltb_irrefl.
  - intros d. destruct (ltb 0 delta) eqn:Hpos; simpl.
    + intros [Hd|[Hd|[Hd|[Hd|[]]]]]; try discriminate.
      injection Hd as <-. by apply ltb_lt.
    + intros [Hd|[Hd|[]]]; discriminate.
Qed.

Lemma animate_calls_update_only_on_positive_delta_witness :
  loopWorld (animate (inputOnlyUpdate escapeHeld) 0%Qc pausedLoop)
  = loopWorld pausedLoop ∧
  frameActions (inputOnlyUpdate escapeHeld) 0%Qc pausedLoop
  = [CallRender; CallRequestAnimationFrame].
Proof.
  apply (animate_calls_update_only_on_positive_delta
           (inputOnlyUpdate escapeHeld) 0%Qc pausedLoop).
  reflexivity.
Defined.

(** On a paused frame with a zero delta, [World.update] is not invoked, so
    it is in particular not invoked with a zero delta; the held Escape key
    is not seen and the game stays paused. *)
Lemma paused_frame_does_not_call_update :
  let l := animate (inputOnlyUpdate escapeHeld) 0%Qc pausedLoop in
  actions l = [CallRender; CallRequestAnimationFrame] ∧
  ¬ In (CallWorldUpdate 0%Qc) (actions l) ∧
  (loopWorld l).2 = "paused"%string.
Proof.
  assert (Hl : actions (animate (inputOnlyUpdate escapeHeld) 0%Qc pausedLoop)
               = [CallRender; CallRequestAnimationFrame])
    by (vm_compute; reflexivity).
  intros l. subst l. rewrite Hl. split; [done|]. split.
  - intros [Hd|[Hd|[]]]; discriminate.
  - vm_compute. reflexivity.
Qed.

(** With a positive delta the same frame runs the update, and the held
    Escape key resumes the game. *)
Example running_frame_calls_update :
  let l := animate (inputOnlyUpdate escapeHeld) (num 1 60) pausedLoop in
  actions l = [CallWorldUpdate (num 1 60); CallMinimapUpdate;
               CallRender; CallRequestAnimationFrame] ∧
  (loopWorld l).2 = "playing"%string.
Proof. vm_compute. done. Qed.

(** ** C2: [World.update] with a zero delta *)


Lemma updateInput_fixed_iff_settled (s : InputSystem) (i : InputComponent) :
  updateInput s i = i ↔ settled s i.
Proof.
  unfold settled, attackKeyDown, dashKeyDown, escapeDown.
  destruct i as [u d l r a da ap dp pp]. unfold updateInput. simpl. split.
  - intros Heq. injection Heq as Hu Hd Hl Hr Ha Hda Hap Hdp Hpp.
    rewrite Hap in Ha. rewrite Hdp in Hda.
    repeat split; try done.
    + rewrite <- Ha. by destruct ap.
    + rewrite <- Hda. by destruct dp.
  - intros (-> & -> & -> & -> & -> & -> & -> & -> & ->).
    f_equal; by rewrite andb_negb_r.
Qed.

Section ZeroDelta.
Context {G : Type} `{GameController G}.

Lemma systemUpdate_input_ignores_delta s dt dt' (rt : Runtime G) :
  systemUpdate (SInput s) dt rt = systemUpdate (SInput s) dt' rt.
Proof. reflexivity. Qed.

Lemma entities_systemUpdate_input s dt (rt : Runtime G) :
  entities (world (systemUpdate (SInput s) dt rt))
  = (updateEntities s (entities (world rt)) (game rt)).1.
Proof.
  simpl. by destruct (updateEntities s (entities (world rt)) (game rt)).
Qed.

Lemma pendingDestroy_systemUpdate_input s dt (rt : Runtime G) :
  pendingDestroy (world (systemUpdate (SInput s) dt rt))
  = pendingDestroy (world rt).
Proof.
  simpl. by destruct (updateEntities s (entities (world rt)) (game rt)).
Qed.

Lemma events_systemUpdate_input s dt (rt : Runtime G) :
  events (systemUpdate (SInput s) dt rt) = events rt.
Proof.
  simpl. by destruct (updateEntities s (entities (world rt)) (game rt)).
Qed.
End ZeroDelta.


(** ** The entity store *)

Lemma getEntity_elem_of id e (es : Entities) :
  getEntity id es = Some e → (id, e) ∈ es.
Proof.
  induction es as [|[i e0] rest IH]; simpl; [done|].
  destruct (Nat.eqb i id) eqn:E.
  - apply Nat.eqb_eq in E as ->. intros [= ->]. left.
  - intros Hg. right. by apply IH.
Qed.

Lemma getEntity_None_not_elem id (es : Entities) :
  getEntity id es = None ↔ id ∉ es.*1.
Proof.
  induction es as [|[i e0] rest IH]; simpl.
  - split; [intros _; apply not_elem_of_nil | done].
  - destruct (Nat.eqb i id) eqn:E.
    + apply Nat.eqb_eq in E as ->. split; [done|].
      intros Hn. exfalso. apply Hn. left.
    + apply Nat.eqb_neq in E. rewrite IH, not_elem_of_cons. simpl.
      split; [by intros ?; split | by intros [_ ?]].
Qed.

Lemma getEntity_setHealth_eq id h (es : Entities) :
  getEntity id (setHealth id h es)
  = (λ e, {| input := input e; health := Some h |}) <$> getEntity id es.
Proof.
  induction es as [|[i e0] rest IH]; simpl; [done|].
  destruct (Nat.eqb i id) eqn:E; simpl; by rewrite E.
Qed.

Lemma getEntity_setHealth_ne id id' h (es : Entities) :
  id ≠ id' → getEntity id' (setHealth id h es) = getEntity id' es.
Proof.
  intros Hne. induction es as [|[i e0] rest IH]; simpl; [done|].
  destruct (Nat.eqb i id) eqn:E; simpl.
  - apply Nat.eqb_eq in E as ->.
    by destruct (Nat.eqb_neq id id') as [_ ->].
  - by destruct (Nat.eqb i id').
Qed.

Lemma healthOf_setHealth_eq id h h0 (es : Entities) :
  healthOf id es = Some h0 → healthOf id (setHealth id h es) = Some h.
Proof.
  unfold healthOf. rewrite getEntity_setHealth_eq.
  by destruct (getEntity id es).
Qed.

Lemma healthOf_setHealth_ne id id' h (es : Entities) :
  id ≠ id' → healthOf id' (setHealth id h es) = healthOf id' es.
Proof. intros Hne. unfold healthOf. by rewrite getEntity_setHealth_ne. Qed.

Lemma inputOf_setHealth id id' h (es : Entities) :
  inputOf id' (setHealth id h es) = inputOf id' es.
Proof.
  unfold inputOf. destruct (decide (id = id')) as [->|Hne].
  - rewrite getEntity_setHealth_eq. by destruct (getEntity id' es).
  - by rewrite getEntity_setHealth_ne.
Qed.

Lemma setHealth_ids id h (es : Entities) : (setHealth id h es).*1 = es.*1.
Proof.
  induction es as [|[i e0] rest IH]; simpl; [done|].
  destruct (Nat.eqb i id); csimpl; [done | by f_equal].
Qed.

Lemma healthOf_elem_of id h (es : Entities) :
  healthOf id es = Some h → ∃ e, (id, e) ∈ es ∧ health e = Some h.
Proof.
  unfold healthOf. destruct (getEntity id es) as [e|] eqn:E; [|done].
  simpl. intros Hh. exists e. split; [by apply getEntity_elem_of | done].
Qed.

(** ** Health components under the combat operations *)

Lemma clamp_bounds (hi x : number) :
  (0 <= hi)%Qc → (0 <= clamp 0 hi x)%Qc ∧ (clamp 0 hi x <= hi)%Qc.
Proof.
  intros Hhi. unfold clamp.
  destruct (ltb x 0) eqn:Hlo; [by split; [apply Qcle_refl|]|].
  destruct (ltb hi x) eqn:Hup.
  - split; [done | apply Qcle_refl].
  - by split; [apply ltb_ge | apply ltb_ge].
Qed.

Lemma clamp_below (hi x : number) : (x <= 0)%Qc → (0 <= hi)%Qc → clamp 0 hi x = 0%Qc.
Proof.
  intros Hx Hhi. unfold clamp.
  destruct (ltb x 0) eqn:Hlo; [done|].
  apply ltb_ge in Hlo. assert (x = 0%Qc) as -> by by apply Qcle_antisym.
  destruct (ltb hi 0) eqn:Hup; [|done].
  apply ltb_lt in Hup. by apply Qclt_not_le in Hup.
Qed.

Lemma clamp_inside (hi x : number) :
  (0 <= x)%Qc → (x <= hi)%Qc → clamp 0 hi x = x.
Proof.
  intros Hlo Hhi. unfold clamp.
  destruct (ltb x 0) eqn:E1.
  - apply ltb_lt in E1. by apply Qclt_not_le in E1.
  - destruct (ltb hi x) eqn:E2; [|done].
    apply ltb_lt in E2. by apply Qclt_not_le in E2.
Qed.

(** What an accepted damage application changes, and when it is accepted. *)
Lemma applyDamage_Some atk dmg h h' :
  applyDamage atk dmg h = Some h' →
  isDead h = false ∧ isInvulnerable h = false ∧ alreadyHitBy atk h = false ∧
  current h' = current h ∧ max h' = max h ∧
  pendingDamage h' = (pendingDamage h + dmg)%Qc ∧
  invulnerableRemaining h' = invulnerableRemaining h ∧
  invulnerableCooldown h' = invulnerableCooldown h ∧
  onDeath h' = onDeath h ∧
  recentlyHitBy h' = Some ({[atk]} ∪ default ∅ (recentlyHitBy h)).
Proof.
  unfold applyDamage.
  destruct (isDead h); [done|]. destruct (isInvulnerable h); [done|].
  destruct (alreadyHitBy atk h); [done|]. intros [= <-]. simpl. done.
Qed.

Lemma applyDamage_records atk dmg h h' :
  applyDamage atk dmg h = Some h' → alreadyHitBy atk h' = true.
Proof.
  intros Ha. apply applyDamage_Some in Ha as (_&_&_&_&_&_&_&_&_&Hr).
  unfold alreadyHitBy. rewrite Hr. apply bool_decide_eq_true. set_solver.
Qed.

Lemma applyDamage_keeps_records atk atk' dmg h h' :
  applyDamage atk' dmg h = Some h' →
  alreadyHitBy atk h = true → alreadyHitBy atk h' = true.
Proof.
  intros Ha. apply applyDamage_Some in Ha as (_&_&_&_&_&_&_&_&_&Hr).
  unfold alreadyHitBy. rewrite Hr.
  destruct (recentlyHitBy h) as [r|]; [|done]. simpl.
  rewrite !bool_decide_eq_true. set_solver.
Qed.

Lemma applyDamage_inv atk dmg h h' :
  applyDamage atk dmg h = Some h' → healthInv h → healthInv h'.
Proof.
  intros Ha. apply applyDamage_Some in Ha as (_&_&_&Hc&Hm&_).
  unfold healthInv. by rewrite Hc, Hm.
Qed.

Lemma resolveHealth_dead dt h :
  isDead h = true → resolveHealth dt h = (h, false).
Proof.
  intros Hd. unfold resolveHealth. rewrite Hd. by destruct (leb (max h) 0).
Qed.

Lemma resolveHealth_inv dt h :
  healthInv h → healthInv (resolveHealth dt h).1.
Proof.
  intros Hinv. unfold resolveHealth.
  destruct (leb (max h) 0) eqn:Hmax; [done|].
  destruct (isDead h); [done|]. simpl. unfold healthInv. simpl.
  apply clamp_bounds. apply leb_gt in Hmax. by apply Qclt_le_weak.
Qed.

Lemma resolveHealth_recentlyHitBy dt h :
  recentlyHitBy (resolveHealth dt h).1 = recentlyHitBy h.
Proof.
  unfold resolveHealth.
  destruct (leb (max h) 0); [done|]. by destruct (isDead h).
Qed.

(** The entity enters Dead exactly when it was alive and its health after
    the resolution is not positive. *)
Lemma resolveHealth_died dt h :
  (resolveHealth dt h).2 = true ↔
  leb (max h) 0 = false ∧ isDead h = false ∧ isDead (resolveHealth dt h).1 = true.
Proof.
  unfold resolveHealth.
  destruct (leb (max h) 0) eqn:Hmax.
  { simpl. split; [done | by intros [? _]]. }
  destruct (isDead h) eqn:Hd.
  { simpl. split; [done | by intros (_ & ? & _)]. }
  simpl. unfold isDead. simpl.
  set (c := clamp 0 (max h) (current h - pendingDamage h)).
  assert (H0c : (0 <= c)%Qc).
  { apply clamp_bounds. apply leb_gt in Hmax. by apply Qclt_le_weak. }
  destruct (ltb 0 c) eqn:Hc; simpl.
  - apply ltb_lt in Hc. split; [done|]. intros (_ & _ & Hle).
    apply leb_le in Hle. by apply Qclt_not_le in Hc.
  - apply ltb_ge in Hc. split; [|done]. intros _.
    repeat split. by apply leb_le.
Qed.

(** ** C3: health stays within its bounds *)

Lemma storeInv_healthOf id h es :
  storeInv es → healthOf id es = Some h → healthInv h.
Proof.
  intros Hinv Hh. apply healthOf_elem_of in Hh as (e & He & Hh).
  unfold storeInv in Hinv. rewrite list.Forall_forall in Hinv.
  by apply (Hinv _ He).
Qed.

Lemma storeInv_setHealth id h es :
  storeInv es → healthInv h → storeInv (setHealth id h es).
Proof.
  intros Hinv Hh. induction Hinv as [|[i e] rest He Hrest IH]; simpl.
  - constructor.
  - destruct (Nat.eqb i id).
    + constructor; [|done]. intros h' [= <-]. done.
    + by constructor.
Qed.

Lemma storeInv_applyHit hit es :
  storeInv es → storeInv (applyHit hit es).1.
Proof.
  intros Hinv. unfold applyHit.
  destruct (healthOf (target hit) es) as [h|] eqn:Hh; [|done].
  destruct (applyDamage (attackId hit) (damage hit) h) as [h'|] eqn:Ha; [|done].
  simpl. apply storeInv_setHealth; [done|].
  eapply applyDamage_inv; [done|]. by eapply storeInv_healthOf.
Qed.

Lemma applyHits_cons hit hits es :
  applyHits (hit :: hits) es
  = ((applyHits hits (applyHit hit es).1).1,
     (applyHit hit es).2 ++ (applyHits hits (applyHit hit es).1).2).
Proof.
  simpl. destruct (applyHit hit es) as [es1 ev1]. simpl.
  by destruct (applyHits hits es1).
Qed.

Lemma storeInv_applyHits hits es :
  storeInv es → storeInv (applyHits hits es).1.
Proof.
  revert es. induction hits as [|hit hits IH]; intros es Hinv; [done|].
  rewrite applyHits_cons. simpl. by apply IH, storeInv_applyHit.
Qed.

Lemma resolveEntities_cons dt id e rest :
  resolveEntities dt ((id, e) :: rest)
  = match health e with
    | Some h =>
        ((id, {| input := input e; health := Some (resolveHealth dt h).1 |})
           :: (resolveEntities dt rest).1.1,
         (if (resolveHealth dt h).2 then deathEvents id h else [])
           ++ (resolveEntities dt rest).1.2,
         (if (resolveHealth dt h).2 then [id] else [])
           ++ (resolveEntities dt rest).2)
    | None => ((id, e) :: (resolveEntities dt rest).1.1,
               (resolveEntities dt rest).1.2,
               (resolveEntities dt rest).2)
    end.
Proof.
  simpl. destruct (resolveEntities dt rest) as [[rest' ev] ds].
  destruct (health e) as [h|]; [|done]. by destruct (resolveHealth dt h).
Qed.

Lemma storeInv_resolveEntities dt es :
  storeInv es → storeInv (resolveEntities dt es).1.1.
Proof.
  intros Hinv. induction Hinv as [|[i e] rest He Hrest IH]; [constructor|].
  rewrite resolveEntities_cons. destruct (health e) as [h|] eqn:Hh; simpl.
  - constructor; [|done]. intros h' [= <-]. apply resolveHealth_inv. by apply He.
  - by constructor.
Qed.

Lemma storeInv_clearEndedEntities ended es :
  storeInv es → storeInv (clearEndedEntities ended es).
Proof.
  intros Hinv. induction Hinv as [|[i e] rest He Hrest IH]; [constructor|].
  constructor; [|done]. intros h'. simpl.
  destruct (health e) as [h|] eqn:Hh; [|done]. intros [= <-].
  by apply (He h).
Qed.

Lemma storeInv_flush w : storeInv (entities w) → storeInv (entities (flush w)).
Proof.
  unfold storeInv. rewrite !List.Forall_forall. intros Hinv p Hp. apply Hinv.
  simpl in Hp. by apply filter_In in Hp as [Hp _].
Qed.

Section BoundsPreserved.
Context {G : Type} `{GameController G}.

Lemma storeInv_updateEntities s es (g : G) :
  storeInv es → storeInv (updateEntities s es g).1.
Proof.
  intros Hinv. revert g.
  induction Hinv as [|[i e] rest He Hrest IH]; intros g; [constructor|].
  rewrite updateEntities_cons. constructor; [|apply IH].
  simpl in *. unfold updateEntity. by destruct (input e).
Qed.

Lemma storeInv_systemUpdate sys dt (rt : Runtime G) :
  storeInv (entities (world rt)) →
  storeInv (entities (world (systemUpdate sys dt rt))).
Proof.
  intros Hinv. destruct sys as [s|ended|hits|]; simpl.
  - pose proof (storeInv_updateEntities s _ (game rt) Hinv) as Hs.
    by destruct (updateEntities s (entities (world rt)) (game rt)).
  - by apply storeInv_clearEndedEntities.
  - pose proof (storeInv_applyHits hits _ Hinv) as Hs.
    by destruct (applyHits hits (entities (world rt))).
  - pose proof (storeInv_resolveEntities dt _ Hinv) as Hs.
    by destruct (resolveEntities dt (entities (world rt))) as [[??]?].
Qed.

Lemma storeInv_step allowed (rt rt' : Runtime G) :
  step allowed rt rt' →
  storeInv (entities (world rt)) → storeInv (entities (world rt')).
Proof.
  intros [sys dt rt0 _|rt0] Hinv.
  - by apply storeInv_systemUpdate.
  - by apply storeInv_flush.
Qed.

Lemma storeInv_runSystems systems dt (rt : Runtime G) :
  storeInv (entities (world rt)) →
  storeInv (entities (world (runSystems systems dt rt))).
Proof.
  revert rt. induction systems as [|sys systems IH]; intros rt Hinv; [done|].
  simpl. by apply IH, storeInv_systemUpdate.
Qed.

(** A frame is a run of steps. *)
Lemma runSystems_steps allowed systems dt (rt : Runtime G) :
  Forall allowed systems →
  rtc (step allowed) rt (runSystems systems dt rt).
Proof.
  intros Hall. revert rt.
  induction Hall as [|sys systems Hsys Hall IH]; intros rt; [done|].
  simpl. eapply rtc_l; [by apply step_system | apply IH].
Qed.

Lemma World_update_steps allowed systems dt (rt : Runtime G) :
  Forall allowed systems →
  rtc (step allowed) rt (World_update systems dt rt).
Proof.
  intros Hall. eapply rtc_r; [by apply runSystems_steps | apply step_flush].
Qed.
End BoundsPreserved.

Lemma Qcle_minus_nonpos (x d : number) : (x <= d)%Qc → (x - d <= 0)%Qc.
Proof.
  intros Hle. apply (Qcplus_le_mono_r _ _ (- d)%Qc) in Hle.
  by rewrite Qcplus_opp_r in Hle.
Qed.

(** Comparisons between literals. *)
Ltac qc_compare :=
  lazymatch goal with
  | |- (_ <= _)%Qc => apply leb_le
  | |- (_ < _)%Qc => apply ltb_lt
  | |- _ => idtac
  end;
  vm_compute; reflexivity.

Lemma wounded_inv : healthInv wounded.
Proof. split; qc_compare. Qed.

Lemma fresh_inv : healthInv fresh.
Proof. split; qc_compare. Qed.

Lemma arena_inv : storeInv arena.
Proof.
  unfold storeInv, arena.
  repeat (apply Forall_cons;
          [intros h; simpl; intros Hh; simplify_eq;
           first [apply wounded_inv | apply fresh_inv] |]).
  apply Forall_nil.
Qed.

(** C3.  If every Health component of the store satisfies
    [0 <= current <= max], so does every Health component at every point
    that a run of system updates and flushes reaches; a frame of
    [World.update], and every prefix of its pipeline, is such a run.  A hit
    whose damage is at least the current health leaves [current] at exactly
    zero after the resolution. *)
Theorem health_within_bounds {G : Type} `{GameController G} (rt : Runtime G) :
  storeInv (entities (world rt)) →
  (∀ rt', rtc (step anySystem) rt rt' →
     storeInv (entities (world rt')) ∧
     ∀ id h, healthOf id (entities (world rt')) = Some h →
             (0 <= current h)%Qc ∧ (current h <= max h)%Qc) ∧
  (∀ systems dt n,
     rtc (step anySystem) rt (runSystems (take n systems) dt rt) ∧
     rtc (step anySystem) rt (World_update systems dt rt)) ∧
  (∀ h atk dmg dt h1,
     healthInv h → pendingDamage h = 0%Qc → (current h <= dmg)%Qc →
     applyDamage atk dmg h = Some h1 →
     current (resolveHealth dt h1).1 = 0%Qc ∧ (resolveHealth dt h1).2 = true).
Proof.
  intros Hinv. split; [|split].
  - intros rt' Hrun.
    assert (Hinv' : storeInv (entities (world rt'))).
    { induction Hrun as [rt0|rt0 rt1 rt2 Hstep _ IH]; [done|].
      apply IH. by eapply storeInv_step. }
    split; [done|]. intros id h Hh. by eapply storeInv_healthOf.
  - intros systems dt n.
    assert (Hany : ∀ l : list System, Forall anySystem l).
    { intros l. by apply Forall_true. }
    split; [apply runSystems_steps | apply World_update_steps]; apply Hany.
  - intros h atk dmg dt h1 [H0 Hmax] Hpend Hover Happ.
    apply applyDamage_Some in Happ
      as (Hdead & _ & _ & Hc & Hm & Hp & _).
    assert (Halive : (0 < current h)%Qc) by by apply leb_gt.
    assert (Hmaxpos : leb (max h1) 0 = false).
    { apply leb_gt. rewrite Hm. by eapply Qclt_le_trans. }
    assert (Hd1 : isDead h1 = false) by (unfold isDead; by rewrite Hc).
    assert (Hzero : clamp 0 (max h1) (current h1 - pendingDamage h1) = 0%Qc).
    { apply clamp_below.
      - rewrite Hc, Hp, Hpend, Qcplus_0_l. by apply Qcle_minus_nonpos.
      - apply Qclt_le_weak. by apply leb_gt. }
    assert (Hcur : current (resolveHealth dt h1).1 = 0%Qc).
    { unfold resolveHealth. rewrite Hmaxpos, Hd1. simpl. exact Hzero. }
    split; [exact Hcur|].
    apply resolveHealth_died. repeat split; try done.
    unfold isDead. rewrite Hcur. qc_compare.
Qed.

Lemma health_within_bounds_witness :
  let rt := runtimeOf arena "playing" in
  storeInv (entities (world (World_update [SDamage [fatalHit]; SHealth]
                               (num 1 60) rt))) ∧
  (∃ h1, applyDamage "a1" (num 5 1) wounded = Some h1 ∧
         current (resolveHealth (num 1 60) h1).1 = 0%Qc).
Proof.
  intros rt.
  destruct (@health_within_bounds _ StringController.controller rt arena_inv)
    as (Hrun & Hframe & Hover).
  split.
  - apply Hrun. apply (Hframe [SDamage [fatalHit]; SHealth] (num 1 60) 0).
  - eexists. split; [reflexivity|].
    eapply Hover; [apply wounded_inv | reflexivity | | reflexivity].
    qc_compare.
Defined.

(** ** C4: one attack damages one entity at most once *)

Lemma damageCount_app id atk ev1 ev2 :
  damageCount id atk (ev1 ++ ev2) = damageCount id atk ev1 + damageCount id atk ev2.
Proof. unfold damageCount. by rewrite List.filter_app, length_app. Qed.

Lemma isDamageOf_true id atk t a d :
  isDamageOf id atk (Damaged t a d) = true ↔ t = id ∧ a = atk.
Proof.
  simpl. rewrite andb_true_iff, Nat.eqb_eq, String.eqb_eq. done.
Qed.

Lemma alreadyHitBy_clearEnded atk ended h :
  atk ∉ ended → alreadyHitBy atk (clearEnded ended h) = alreadyHitBy atk h.
Proof.
  intros Hactive. unfold alreadyHitBy. simpl.
  destruct (recentlyHitBy h) as [r|]; [|done]. simpl.
  apply bool_decide_ext. rewrite elem_of_difference.
  split; [by intros [? _] | by intros ?; split].
Qed.

Lemma getEntity_clearEndedEntities ended id es :
  getEntity id (clearEndedEntities ended es)
  = (λ e, {| input := input e; health := clearEnded ended <$> health e |})
      <$> getEntity id es.
Proof.
  induction es as [|[i e] rest IH]; simpl; [done|].
  by destruct (Nat.eqb i id).
Qed.

Lemma healthOf_clearEndedEntities ended id es :
  healthOf id (clearEndedEntities ended es) = clearEnded ended <$> healthOf id es.
Proof.
  unfold healthOf. rewrite getEntity_clearEndedEntities.
  by destruct (getEntity id es).
Qed.

Lemma getEntity_resolveEntities dt id es :
  getEntity id (resolveEntities dt es).1.1
  = (λ e, {| input := input e;
             health := (λ h, (resolveHealth dt h).1) <$> health e |})
      <$> getEntity id es.
Proof.
  induction es as [|[i e] rest IH]; [done|].
  rewrite resolveEntities_cons.
  destruct (health e) as [h|] eqn:Hh; simpl; destruct (Nat.eqb i id); simpl;
    rewrite ?Hh; try done.
  by destruct e; simpl in *; subst.
Qed.

Lemma healthOf_resolveEntities dt id es :
  healthOf id (resolveEntities dt es).1.1
  = (λ h, (resolveHealth dt h).1) <$> healthOf id es.
Proof.
  unfold healthOf. rewrite getEntity_resolveEntities.
  by destruct (getEntity id es).
Qed.

Lemma damageCount_resolveEntities dt id atk es :
  damageCount id atk (resolveEntities dt es).1.2 = 0.
Proof.
  induction es as [|[i e] rest IH]; [done|].
  rewrite resolveEntities_cons. destruct (health e) as [h|]; simpl; [|done].
  rewrite damageCount_app, IH.
  destruct ((resolveHealth dt h).2); [|done].
  unfold deathEvents. by destruct (onDeath h).
Qed.

(** The flush keeps or removes an entity by its identifier alone. *)
Lemma getEntity_flush id w :
  getEntity id (entities (flush w))
  = if existsb (Nat.eqb id) (pendingDestroy w) then None
    else getEntity id (entities w).
Proof.
  destruct w as [es pd]. simpl.
  induction es as [|[i e] rest IH]; simpl.
  - by destruct (existsb (Nat.eqb id) pd).
  - destruct (Nat.eqb i id) eqn:E.
    + apply Nat.eqb_eq in E as ->.
      destruct (existsb (Nat.eqb id) pd); simpl; [done|].
      by rewrite Nat.eqb_refl.
    + destruct (existsb (Nat.eqb i) pd); simpl; [done|]. by rewrite E.
Qed.

Lemma recorded_flush atk id w :
  recorded atk id (entities w) → recorded atk id (entities (flush w)).
Proof.
  unfold recorded, healthOf. rewrite getEntity_flush.
  by destruct (existsb (Nat.eqb id) (pendingDestroy w)).
Qed.

Lemma applyHit_other hit id es :
  target hit ≠ id → healthOf id (applyHit hit es).1 = healthOf id es.
Proof.
  intros Hne. unfold applyHit.
  destruct (healthOf (target hit) es) as [h|]; [|done].
  destruct (applyDamage (attackId hit) (damage hit) h); [|done].
  simpl. by apply healthOf_setHealth_ne.
Qed.

(** An attack that is recorded for the entity is ignored, and stays
    recorded. *)
Lemma applyHit_recorded atk id hit es :
  recorded atk id es →
  recorded atk id (applyHit hit es).1 ∧ damageCount id atk (applyHit hit es).2 = 0.
Proof.
  intros Hrec. destruct (decide (target hit = id)) as [Ht|Ht].
  - unfold applyHit.
    destruct (healthOf (target hit) es) as [h|] eqn:Hh; [|done].
    destruct (applyDamage (attackId hit) (damage hit) h) as [h'|] eqn:Ha; [|done].
    simpl. rewrite Ht in *. split.
    + intros h2. erewrite healthOf_setHealth_eq by done. intros [= <-].
      eapply applyDamage_keeps_records; [done|]. by apply Hrec.
    + apply applyDamage_Some in Ha as (_ & _ & Hnot & _).
      unfold damageCount. simpl. rewrite Nat.eqb_refl. simpl.
      destruct (String.eqb (attackId hit) atk) eqn:E; [|done].
      apply String.eqb_eq in E. rewrite E in Hnot.
      by rewrite (Hrec h Hh) in Hnot.
  - split.
    + intros h. rewrite applyHit_other by done. apply Hrec.
    + unfold applyHit.
      destruct (healthOf (target hit) es) as [h|]; [|done].
      destruct (applyDamage (attackId hit) (damage hit) h); [|done].
      unfold damageCount. simpl.
      by destruct (Nat.eqb_neq (target hit) id) as [_ ->].
Qed.

(** An attack that is accepted is recorded. *)
Lemma applyHit_once atk id hit es :
  damageCount id atk (applyHit hit es).2 = 0 ∨
  (damageCount id atk (applyHit hit es).2 = 1 ∧ recorded atk id (applyHit hit es).1).
Proof.
  unfold applyHit.
  destruct (healthOf (target hit) es) as [h|] eqn:Hh; [|by left].
  destruct (applyDamage (attackId hit) (damage hit) h) as [h'|] eqn:Ha; [|by left].
  simpl. unfold damageCount. simpl.
  destruct (Nat.eqb (target hit) id && String.eqb (attackId hit) atk) eqn:E;
    [|by left].
  right. split; [done|].
  apply andb_true_iff in E as [Ht Ea].
  apply Nat.eqb_eq in Ht. apply String.eqb_eq in Ea. subst.
  intros h2. erewrite healthOf_setHealth_eq by done. intros [= <-].
  by eapply applyDamage_records.
Qed.

Lemma applyHits_recorded atk id hits es :
  recorded atk id es →
  recorded atk id (applyHits hits es).1 ∧ damageCount id atk (applyHits hits es).2 = 0.
Proof.
  revert es. induction hits as [|hit hits IH]; intros es Hrec; [done|].
  rewrite applyHits_cons. simpl.
  destruct (applyHit_recorded atk id hit es Hrec) as [Hrec1 Hc1].
  destruct (IH _ Hrec1) as [Hrec2 Hc2].
  split; [done|]. by rewrite damageCount_app, Hc1, Hc2.
Qed.

Lemma applyHits_once atk id hits es :
  damageCount id atk (applyHits hits es).2 = 0 ∨
  (damageCount id atk (applyHits hits es).2 = 1 ∧ recorded atk id (applyHits hits es).1).
Proof.
  revert es. induction hits as [|hit hits IH]; intros es; [by left|].
  rewrite applyHits_cons. simpl. rewrite damageCount_app.
  destruct (applyHit_once atk id hit es) as [Hc1|[Hc1 Hrec1]].
  - rewrite Hc1. simpl. apply IH.
  - destruct (applyHits_recorded atk id hits _ Hrec1) as [Hrec2 Hc2].
    right. by rewrite Hc1, Hc2.
Qed.

Section DamageOnce.
Context {G : Type} `{GameController G}.
Variables (atk : string) (id : EntityId).

(** One system update while the attack is active: if the attack is
    recorded for the entity it stays recorded and no damage of it is
    applied; otherwise at most one application happens, and it records
    the attack. *)
Lemma systemUpdate_recorded sys dt (rt : Runtime G) :
  attackActive atk sys →
  recorded atk id (entities (world rt)) →
  recorded atk id (entities (world (systemUpdate sys dt rt))) ∧
  damageCount id atk (events (systemUpdate sys dt rt))
  = damageCount id atk (events rt).
Proof.
  intros Hactive Hrec. destruct sys as [s|ended|hits|]; simpl in *.
  - pose proof (healthOf_updateEntities s (entities (world rt)) (game rt) id) as Hh.
    destruct (updateEntities s (entities (world rt)) (game rt)) as [es g].
    simpl in *. split; [|done]. unfold recorded. by rewrite Hh.
  - rewrite damageCount_app. simpl. split; [|unfold damageCount; simpl; lia].
    intros h. rewrite healthOf_clearEndedEntities.
    destruct (healthOf id (entities (world rt))) as [h0|] eqn:Hh0; [|done].
    simpl. intros [= <-]. rewrite alreadyHitBy_clearEnded by done.
    by apply Hrec.
  - pose proof (applyHits_recorded atk id hits _ Hrec) as [Hrec' Hc].
    destruct (applyHits hits (entities (world rt))) as [es ev].
    simpl in *. split; [done|]. rewrite damageCount_app. lia.
  - pose proof (healthOf_resolveEntities dt id (entities (world rt))) as Hh.
    pose proof (damageCount_resolveEntities dt id atk (entities (world rt))) as Hc.
    destruct (resolveEntities dt (entities (world rt))) as [[es ev] ds].
    simpl in *. split; [|rewrite damageCount_app; lia].
    intros h. rewrite Hh.
    destruct (healthOf id (entities (world rt))) as [h0|] eqn:Hh0; [|done].
    simpl. intros [= <-]. unfold alreadyHitBy.
    rewrite resolveHealth_recentlyHitBy. by apply Hrec.
Qed.

Lemma systemUpdate_once sys dt (rt : Runtime G) :
  damageCount id atk (events (systemUpdate sys dt rt))
  = damageCount id atk (events rt) ∨
  (damageCount id atk (events (systemUpdate sys dt rt))
   = S (damageCount id atk (events rt)) ∧
   recorded atk id (entities (world (systemUpdate sys dt rt)))).
Proof.
  destruct sys as [s|ended|hits|]; simpl.
  - left. by destruct (updateEntities s (entities (world rt)) (game rt)).
  - left. rewrite damageCount_app. unfold damageCount. simpl. lia.
  - pose proof (applyHits_once atk id hits (entities (world rt))) as Honce.
    destruct (applyHits hits (entities (world rt))) as [es ev].
    simpl in *. rewrite damageCount_app.
    destruct Honce as [->|[-> Hrec]]; [left; lia | right; split; [lia|done]].
  - left.
    pose proof (damageCount_resolveEntities dt id atk (entities (world rt))) as Hc.
    destruct (resolveEntities dt (entities (world rt))) as [[es ev] ds].
    simpl in *. rewrite damageCount_app. lia.
Qed.

Lemma step_recorded (rt rt' : Runtime G) :
  step (attackActive atk) rt rt' →
  recorded atk id (entities (world rt)) →
  recorded atk id (entities (world rt')) ∧
  damageCount id atk (events rt') = damageCount id atk (events rt).
Proof.
  intros [sys dt rt0 Hactive|rt0] Hrec.
  - by apply systemUpdate_recorded.
  - split; [by apply recorded_flush | done].
Qed.

Lemma step_once (rt rt' : Runtime G) :
  step (attackActive atk) rt rt' →
  damageCount id atk (events rt') = damageCount id atk (events rt) ∨
  (damageCount id atk (events rt') = S (damageCount id atk (events rt)) ∧
   recorded atk id (entities (world rt'))).
Proof.
  intros [sys dt rt0 Hactive|rt0].
  - apply systemUpdate_once.
  - by left.
Qed.

Lemma run_recorded (rt rt' : Runtime G) :
  rtc (step (attackActive atk)) rt rt' →
  recorded atk id (entities (world rt)) →
  recorded atk id (entities (world rt')) ∧
  damageCount id atk (events rt') = damageCount id atk (events rt).
Proof.
  induction 1 as [rt0|rt0 rt1 rt2 Hstep _ IH]; intros Hrec; [done|].
  destruct (step_recorded _ _ Hstep Hrec) as [Hrec1 Hc1].
  destruct (IH Hrec1) as [Hrec2 Hc2]. split; [done|]. by rewrite Hc2.
Qed.

Lemma run_once (rt rt' : Runtime G) :
  rtc (step (attackActive atk)) rt rt' →
  damageCount id atk (events rt') = damageCount id atk (events rt) ∨
  (damageCount id atk (events rt') = S (damageCount id atk (events rt)) ∧
   recorded atk id (entities (world rt'))).
Proof.
  induction 1 as [rt0|rt0 rt1 rt2 Hstep Hrun IH]; [by left|].
  destruct (step_once _ _ Hstep) as [Hc1|[Hc1 Hrec1]].
  - rewrite <- Hc1. apply IH.
  - destruct (run_recorded _ _ Hrun Hrec1) as [Hrec2 Hc2].
    right. split; [by rewrite Hc2|done].
Qed.
End DamageOnce.

(** C4.  Over any run of system updates and flushes during which the
    lifespan of attack [atk] has not ended, damage of [atk] is applied to
    entity [id] at most once, however many hits of [atk] on [id] the frames
    bring; when it is applied, [atk] is recorded for [id]; and once [atk]
    is recorded for [id], no damage of [atk] is applied to [id] for the rest
    of the run.  A hit on another entity changes nothing of [id]'s Health
    component, so the record is per entity. *)
Theorem attack_damages_entity_at_most_once {G : Type} `{GameController G}
    (atk : string) (id : EntityId) (rt rt' : Runtime G) :
  rtc (step (attackActive atk)) rt rt' →
  damageCount id atk (events rt') ≤ S (damageCount id atk (events rt)) ∧
  (damageCount id atk (events rt') ≠ damageCount id atk (events rt) →
     recorded atk id (entities (world rt'))) ∧
  (recorded atk id (entities (world rt)) →
     damageCount id atk (events rt') = damageCount id atk (events rt) ∧
     recorded atk id (entities (world rt'))) ∧
  (∀ hit es, target hit ≠ id → healthOf id (applyHit hit es).1 = healthOf id es).
Proof.
  intros Hrun. repeat split.
  - destruct (run_once atk id _ _ Hrun) as [->|[-> _]]; lia.
  - intros Hne. by destruct (run_once atk id _ _ Hrun) as [?|[_ ?]].
  - by apply (run_recorded atk id _ _ Hrun).
  - by apply (run_recorded atk id _ _ Hrun).
  - intros hit es Hne. by apply applyHit_other.
Qed.

Lemma runFrames_steps {G : Type} `{GameController G} allowed
    (frames : list (list System * Qc)) (rt : Runtime G) :
  Forall (λ f, Forall allowed f.1) frames →
  rtc (step allowed) rt (runFrames frames rt).
Proof.
  intros Hall. revert rt.
  induction Hall as [|f frames Hf Hall IH]; intros rt; [done|].
  simpl. etrans; [by apply World_update_steps | apply IH].
Qed.

Lemma lingeringAttack_active :
  Forall (λ f : list System * Qc, Forall (attackActive "a1") f.1) lingeringAttack.
Proof.
  repeat (apply Forall_cons; [simpl|]); try apply Forall_nil; try done.
  all: apply not_elem_of_empty.
Qed.

Lemma attack_damages_entity_at_most_once_witness :
  let rt := runtimeOf arena "playing" in
  let rt' := runFrames lingeringAttack rt in
  damageCount 8 "a1" (events rt') ≤ 1 ∧
  damageCount 8 "a1" (events rt') = 1 ∧
  recorded "a1" 8 (entities (world rt')).
Proof.
  intros rt rt'.
  destruct (@attack_damages_entity_at_most_once _ StringController.controller
              "a1" 8 rt rt'
              (runFrames_steps _ lingeringAttack rt lingeringAttack_active))
    as (Hle & Hrec & _).
  split; [exact Hle|].
  assert (Hone : damageCount 8 "a1" (events rt') = 1) by (vm_compute; reflexivity).
  split; [exact Hone|]. apply Hrec.
  intros Heq. vm_compute in Heq. discriminate.
Defined.

(** ** C5: the invulnerability window *)

Lemma applyDamage_invulnerable atk dmg h :
  (0 < invulnerableRemaining h)%Qc → applyDamage atk dmg h = None.
Proof.
  intros Hinv. unfold applyDamage. destruct (isDead h); [done|].
  unfold isInvulnerable. by rewrite (proj2 (ltb_lt _ _) Hinv).
Qed.

Lemma applyHits_invulnerable id h hits es :
  (0 < invulnerableRemaining h)%Qc →
  healthOf id es = Some h → healthOf id (applyHits hits es).1 = Some h.
Proof.
  intros Hinv. revert es. induction hits as [|hit hits IH]; intros es Hh; [done|].
  rewrite applyHits_cons. simpl. apply IH.
  destruct (decide (target hit = id)) as [Heq|Hne].
  - unfold applyHit. rewrite Heq, Hh. by rewrite applyDamage_invulnerable.
  - by rewrite applyHit_other.
Qed.

(** Damage is pending only on a vulnerable component: the damage
    application accepts nothing while invulnerable and leaves the countdown
    alone, and the resolution resets the pending damage. *)
Lemma pending_only_while_vulnerable (h : HealthComponent) (dt : Qc) :
  (isInvulnerable h = true → pendingDamage h = 0%Qc) →
  (∀ atk dmg h', applyDamage atk dmg h = Some h' → isInvulnerable h' = false) ∧
  (isInvulnerable (resolveHealth dt h).1 = true →
   pendingDamage (resolveHealth dt h).1 = 0%Qc).
Proof.
  intros Hq. split.
  - intros atk dmg h' Ha.
    apply applyDamage_Some in Ha as (_ & Hv & _ & _ & _ & _ & Hr & _).
    unfold isInvulnerable in *. by rewrite Hr.
  - unfold resolveHealth. destruct (leb (max h) 0); [done|].
    by destruct (isDead h).
Qed.

(** C5.  While [invulnerableRemaining > 0] every damage application on the
    component is ignored: it leaves the component as it is, whatever hits a
    frame brings, and the resolution that follows leaves [current] as it
    is.  When the resolution applies pending damage and the entity
    survives, [invulnerableRemaining] becomes [invulnerableCooldown]; and a
    resolution takes [invulnerableRemaining] from non-positive to positive
    only in that case. *)
Theorem invulnerability_window (h : HealthComponent) (dt : Qc) :
  ((0 < invulnerableRemaining h)%Qc →
     (∀ atk dmg, applyDamage atk dmg h = None) ∧
     (∀ id es hits, healthOf id es = Some h →
                    healthOf id (applyHits hits es).1 = Some h) ∧
     (healthInv h → pendingDamage h = 0%Qc →
      current (resolveHealth dt h).1 = current h)) ∧
  (healthInv h → (0 < pendingDamage h)%Qc →
   (0 < current (resolveHealth dt h).1)%Qc →
   ∀ c, invulnerableCooldown h = Some c →
        invulnerableRemaining (resolveHealth dt h).1 = c) ∧
  ((invulnerableRemaining h <= 0)%Qc →
   (0 < invulnerableRemaining (resolveHealth dt h).1)%Qc →
   (0 < pendingDamage h)%Qc ∧ (0 < current (resolveHealth dt h).1)%Qc ∧
   invulnerableCooldown h = Some (invulnerableRemaining (resolveHealth dt h).1)).
Proof.
  split; [|split].
  - intros Hinv. split; [|split].
    + intros atk dmg. by apply applyDamage_invulnerable.
    + intros id es hits. by apply applyHits_invulnerable.
    + intros [H0 Hmax] Hpend. unfold resolveHealth.
      destruct (leb (max h) 0); [done|]. destruct (isDead h); [done|].
      simpl. rewrite Hpend.
      replace (current h - 0)%Qc with (current h) by ring.
      by apply clamp_inside.
  - intros [H0 Hmax] Hpend. unfold resolveHealth.
    destruct (leb (max h) 0) eqn:Hm.
    { simpl. intros Hcur. apply leb_le in Hm. exfalso.
      eapply Qclt_not_le; [exact Hcur|]. by etrans. }
    destruct (isDead h) eqn:Hd.
    { simpl. intros Hcur. apply leb_le in Hd. exfalso.
      by eapply Qclt_not_le. }
    simpl. intros Hcur c Hc.
    by rewrite (proj2 (ltb_lt _ _) Hpend), (proj2 (ltb_lt _ _) Hcur), Hc.
  - intros Hrem. unfold resolveHealth.
    destruct (leb (max h) 0).
    { simpl. intros Hpos. exfalso. by eapply Qclt_not_le. }
    destruct (isDead h).
    { simpl. intros Hpos. exfalso. by eapply Qclt_not_le. }
    simpl. rewrite (proj2 (ltb_ge _ _) Hrem).
    destruct (ltb 0 (pendingDamage h)) eqn:Hp; simpl.
    + destruct (ltb 0 (clamp 0 (max h) (current h - pendingDamage h))) eqn:Hs.
      * destruct (invulnerableCooldown h) as [c|].
        -- intros _. repeat split; by apply ltb_lt.
        -- intros Hpos. exfalso. by eapply Qclt_not_le.
      * intros Hpos. exfalso. by eapply Qclt_not_le.
    + intros Hpos. exfalso. by eapply Qclt_not_le.
Qed.

Lemma struck_inv : healthInv struck.
Proof. split; qc_compare. Qed.

Lemma invulnerability_window_witness :
  invulnerableRemaining graced = num 1 2 ∧
  applyDamage "a2" (num 4 1) graced = None.
Proof.
  split.
  - apply (proj1 (proj2 (invulnerability_window struck (num 1 60))));
      [apply struck_inv | qc_compare | qc_compare | reflexivity].
  - apply (proj1 (invulnerability_window graced (num 1 60))). qc_compare.
Defined.

(** ** C6: death *)

Lemma deathCount_app id ev1 ev2 :
  deathCount id (ev1 ++ ev2) = deathCount id ev1 + deathCount id ev2.
Proof. unfold deathCount. by rewrite List.filter_app, length_app. Qed.

Lemma deathCount_deathEvents id i h :
  deathCount id (deathEvents i h)
  = if Nat.eqb i id then length (deathEvents i h) else 0.
Proof.
  unfold deathEvents, deathCount. destruct (onDeath h); simpl.
  - by destruct (Nat.eqb i id).
  - by destruct (Nat.eqb i id).
Qed.

Lemma deathEvents_length i h : length (deathEvents i h) ≤ 1.
Proof. unfold deathEvents. destruct (onDeath h); simpl; lia. Qed.

(** The identifiers of the store are left alone by every system. *)
Lemma applyHit_ids hit es : (applyHit hit es).1.*1 = es.*1.
Proof.
  unfold applyHit. destruct (healthOf (target hit) es) as [h|]; [|done].
  destruct (applyDamage (attackId hit) (damage hit) h); [|done].
  apply setHealth_ids.
Qed.

Lemma applyHits_ids hits es : (applyHits hits es).1.*1 = es.*1.
Proof.
  revert es. induction hits as [|hit hits IH]; intros es; [done|].
  rewrite applyHits_cons. simpl. by rewrite IH, applyHit_ids.
Qed.

Lemma resolveEntities_ids dt es : (resolveEntities dt es).1.1.*1 = es.*1.
Proof.
  induction es as [|[i e] rest IH]; [done|].
  rewrite resolveEntities_cons. destruct (health e); csimpl; by f_equal.
Qed.

Lemma clearEndedEntities_ids ended es : (clearEndedEntities ended es).*1 = es.*1.
Proof. induction es as [|[i e] rest IH]; csimpl; [done | by f_equal]. Qed.

Lemma flush_ids_NoDup w :
  NoDup (entities w).*1 → NoDup (entities (flush w)).*1.
Proof.
  destruct w as [es pd]. simpl.
  induction es as [|[i e] rest IH]; csimpl; [done|].
  rewrite list.NoDup_cons. intros [Hi Hrest].
  destruct (existsb (Nat.eqb i) pd); csimpl; [by apply IH|].
  apply list.NoDup_cons. split; [|by apply IH].
  intros Hin. apply Hi. apply list_elem_of_fmap in Hin as ([i' e'] & -> & Hin).
  apply list_elem_of_In, filter_In in Hin as [Hin _].
  apply list_elem_of_fmap. exists (i', e'). split; [done|].
  by apply list_elem_of_In.
Qed.

Lemma isDead_clearEnded ended h : isDead (clearEnded ended h) = isDead h.
Proof. done. Qed.

Lemma deadIfPresent_flush id w :
  deadIfPresent id (entities w) → deadIfPresent id (entities (flush w)).
Proof.
  unfold deadIfPresent, healthOf. rewrite getEntity_flush.
  by destruct (existsb (Nat.eqb id) (pendingDestroy w)).
Qed.

(** Dead is terminal for the damage system. *)
Lemma applyHit_dead id hit es :
  deadIfPresent id es → deadIfPresent id (applyHit hit es).1.
Proof.
  intros Hdead h. destruct (decide (target hit = id)) as [Heq|Hne].
  - unfold applyHit. rewrite Heq.
    destruct (healthOf id es) as [h0|] eqn:Hh; simpl; [|by rewrite Hh].
    unfold applyDamage. rewrite (Hdead h0 Hh). simpl. rewrite Hh.
    intros [= <-]. by apply Hdead.
  - rewrite applyHit_other by done. apply Hdead.
Qed.

Lemma applyHits_dead id hits es :
  deadIfPresent id es → deadIfPresent id (applyHits hits es).1.
Proof.
  revert es. induction hits as [|hit hits IH]; intros es Hdead; [done|].
  rewrite applyHits_cons. simpl. by apply IH, applyHit_dead.
Qed.

Lemma deathCount_applyHits id hits es :
  deathCount id (applyHits hits es).2 = 0.
Proof.
  revert es. induction hits as [|hit hits IH]; intros es; [done|].
  rewrite applyHits_cons. simpl. rewrite deathCount_app, IH.
  unfold applyHit. destruct (healthOf (target hit) es) as [h|]; [|done].
  by destruct (applyDamage (attackId hit) (damage hit) h).
Qed.

(** The health system calls [onDeath] of an entity that is not in the
    store never, and of one that is only when it enters Dead. *)
Lemma deathCount_resolveEntities_absent dt id es :
  id ∉ es.*1 → deathCount id (resolveEntities dt es).1.2 = 0.
Proof.
  induction es as [|[i e] rest IH]; [done|].
  rewrite fmap_cons, not_elem_of_cons. intros [Hne Hrest]. simpl in Hne.
  rewrite resolveEntities_cons. destruct (health e) as [h|]; simpl; [|by apply IH].
  rewrite deathCount_app, IH by done.
  destruct ((resolveHealth dt h).2); [|done].
  rewrite deathCount_deathEvents.
  by destruct (Nat.eqb_neq i id) as [_ ->].
Qed.

Lemma deathCount_resolveEntities dt id es :
  NoDup es.*1 →
  deathCount id (resolveEntities dt es).1.2
  = match healthOf id es with
    | Some h => if (resolveHealth dt h).2 then length (deathEvents id h) else 0
    | None => 0
    end.
Proof.
  induction es as [|[i e] rest IH]; [done|].
  rewrite fmap_cons, list.NoDup_cons. intros [Hi Hrest]. simpl in Hi.
  rewrite resolveEntities_cons. unfold healthOf. simpl.
  destruct (Nat.eqb i id) eqn:E.
  - apply Nat.eqb_eq in E as ->. simpl.
    destruct (health e) as [h|]; simpl.
    + rewrite deathCount_app, deathCount_resolveEntities_absent by done.
      destruct ((resolveHealth dt h).2); [|done].
      rewrite deathCount_deathEvents, Nat.eqb_refl. lia.
    + by apply deathCount_resolveEntities_absent.
  - specialize (IH Hrest). unfold healthOf in IH.
    destruct (health e) as [h|]; simpl; [|done].
    rewrite deathCount_app, IH.
    destruct ((resolveHealth dt h).2); [|done].
    by rewrite deathCount_deathEvents, E.
Qed.

(** An entity that enters Dead is scheduled for destruction. *)
Lemma resolveEntities_schedules dt id h es :
  healthOf id es = Some h → (resolveHealth dt h).2 = true →
  In id (resolveEntities dt es).2.
Proof.
  intros Hh Hdied. induction es as [|[i e] rest IH]; [done|].
  rewrite resolveEntities_cons. unfold healthOf in *. simpl in Hh.
  destruct (Nat.eqb i id) eqn:E.
  - apply Nat.eqb_eq in E as ->. simpl in Hh. rewrite Hh. simpl.
    rewrite Hdied. by left.
  - destruct (health e) as [h0|]; simpl; [|by apply IH].
    apply in_or_app. right. by apply IH.
Qed.

Section DeathOnce.
Context {G : Type} `{GameController G}.
Variable id : EntityId.

Lemma updateEntities_ids s es (g : G) : (updateEntities s es g).1.*1 = es.*1.
Proof.
  revert g. induction es as [|[i e] rest IH]; intros g; [done|].
  rewrite updateEntities_cons. csimpl. by f_equal.
Qed.

Lemma systemUpdate_ids sys dt (rt : Runtime G) :
  (entities (world (systemUpdate sys dt rt))).*1 = (entities (world rt)).*1.
Proof.
  destruct sys as [s|ended|hits|]; simpl.
  - pose proof (updateEntities_ids s (entities (world rt)) (game rt)) as Hs.
    by destruct (updateEntities s (entities (world rt)) (game rt)).
  - apply clearEndedEntities_ids.
  - pose proof (applyHits_ids hits (entities (world rt))) as Hs.
    by destruct (applyHits hits (entities (world rt))).
  - pose proof (resolveEntities_ids dt (entities (world rt))) as Hs.
    by destruct (resolveEntities dt (entities (world rt))) as [[??]?].
Qed.

Lemma step_NoDup allowed (rt rt' : Runtime G) :
  step allowed rt rt' →
  NoDup (entities (world rt)).*1 → NoDup (entities (world rt')).*1.
Proof.
  intros [sys dt rt0 _|rt0] Hnd.
  - by rewrite systemUpdate_ids.
  - by apply flush_ids_NoDup.
Qed.

(** Dead is terminal: a system update leaves a Dead entity Dead and does
    not call its [onDeath]. *)
Lemma systemUpdate_dead sys dt (rt : Runtime G) :
  NoDup (entities (world rt)).*1 →
  deadIfPresent id (entities (world rt)) →
  deadIfPresent id (entities (world (systemUpdate sys dt rt))) ∧
  deathCount id (events (systemUpdate sys dt rt)) = deathCount id (events rt).
Proof.
  intros Hnd Hdead. destruct sys as [s|ended|hits|]; simpl.
  - pose proof (healthOf_updateEntities s (entities (world rt)) (game rt) id) as Hh.
    destruct (updateEntities s (entities (world rt)) (game rt)) as [es g].
    simpl in *. split; [|done]. unfold deadIfPresent. by rewrite Hh.
  - rewrite deathCount_app. split; [|unfold deathCount; simpl; lia].
    intros h. rewrite healthOf_clearEndedEntities.
    destruct (healthOf id (entities (world rt))) as [h0|] eqn:Hh0; [|done].
    simpl. intros [= <-]. rewrite isDead_clearEnded. by apply Hdead.
  - pose proof (applyHits_dead id hits _ Hdead) as Hdead'.
    pose proof (deathCount_applyHits id hits (entities (world rt))) as Hc.
    destruct (applyHits hits (entities (world rt))) as [es ev].
    simpl in *. split; [done|]. rewrite deathCount_app. lia.
  - pose proof (healthOf_resolveEntities dt id (entities (world rt))) as Hh.
    pose proof (deathCount_resolveEntities dt id _ Hnd) as Hc.
    destruct (resolveEntities dt (entities (world rt))) as [[es ev] ds].
    simpl in *. rewrite deathCount_app, Hc.
    destruct (healthOf id (entities (world rt))) as [h0|] eqn:Hh0.
    + rewrite (resolveHealth_dead dt h0 (Hdead h0 Hh0)) in *. simpl in *.
      split; [|lia]. intros h. rewrite Hh. intros [= <-]. rewrite (resolveHealth_dead dt h0 (Hdead h0 Hh0)). by apply Hdead.
    + split; [|lia]. intros h. by rewrite Hh.
Qed.

(** A system update calls [onDeath] of the entity at most once, and only
    when the entity enters Dead. *)
Lemma systemUpdate_death_once sys dt (rt : Runtime G) :
  NoDup (entities (world rt)).*1 →
  deathCount id (events (systemUpdate sys dt rt)) = deathCount id (events rt) ∨
  (deathCount id (events (systemUpdate sys dt rt))
   = S (deathCount id (events rt)) ∧
   deadIfPresent id (entities (world (systemUpdate sys dt rt)))).
Proof.
  intros Hnd. destruct sys as [s|ended|hits|]; simpl.
  - left. by destruct (updateEntities s (entities (world rt)) (game rt)).
  - left. rewrite deathCount_app. unfold deathCount. simpl. lia.
  - left.
    pose proof (deathCount_applyHits id hits (entities (world rt))) as Hc.
    destruct (applyHits hits (entities (world rt))) as [es ev].
    simpl in *. rewrite deathCount_app. lia.
  - pose proof (healthOf_resolveEntities dt id (entities (world rt))) as Hh.
    pose proof (deathCount_resolveEntities dt id _ Hnd) as Hc.
    destruct (resolveEntities dt (entities (world rt))) as [[es ev] ds].
    simpl in *. rewrite deathCount_app, Hc.
    destruct (healthOf id (entities (world rt))) as [h0|] eqn:Hh0; [|left; lia].
    destruct ((resolveHealth dt h0).2) eqn:Hdied; [|left; lia].
    pose proof (deathEvents_length id h0) as Hlen.
    destruct (length (deathEvents id h0)) as [|[|n]]; [left; lia| |lia].
    right. split; [lia|]. intros h. rewrite Hh. simpl. intros [= <-].
    by apply resolveHealth_died in Hdied as (_ & _ & ?).
Qed.

Lemma run_dead (rt rt' : Runtime G) :
  rtc (step anySystem) rt rt' →
  NoDup (entities (world rt)).*1 →
  deadIfPresent id (entities (world rt)) →
  deadIfPresent id (entities (world rt')) ∧
  deathCount id (events rt') = deathCount id (events rt).
Proof.
  induction 1 as [rt0|rt0 rt1 rt2 Hstep _ IH]; intros Hnd Hdead; [done|].
  pose proof (step_NoDup _ _ _ Hstep Hnd) as Hnd1.
  assert (deadIfPresent id (entities (world rt1)) ∧
          deathCount id (events rt1) = deathCount id (events rt0)) as [Hd1 Hc1].
  { destruct Hstep as [sys dt rt0 _|rt0].
    - by apply systemUpdate_dead.
    - split; [by apply deadIfPresent_flush | done]. }
  destruct (IH Hnd1 Hd1) as [Hd2 Hc2]. split; [done|]. by rewrite Hc2.
Qed.

Lemma run_death_once (rt rt' : Runtime G) :
  rtc (step anySystem) rt rt' →
  NoDup (entities (world rt)).*1 →
  deathCount id (events rt') = deathCount id (events rt) ∨
  (deathCount id (events rt') = S (deathCount id (events rt)) ∧
   deadIfPresent id (entities (world rt'))).
Proof.
  induction 1 as [rt0|rt0 rt1 rt2 Hstep Hrun IH]; intros Hnd; [by left|].
  pose proof (step_NoDup _ _ _ Hstep Hnd) as Hnd1.
  assert (deathCount id (events rt1) = deathCount id (events rt0) ∨
          (deathCount id (events rt1) = S (deathCount id (events rt0)) ∧
           deadIfPresent id (entities (world rt1)))) as [Hc1|[Hc1 Hd1]].
  { destruct Hstep as [sys dt rt0 _|rt0].
    - by apply systemUpdate_death_once.
    - by left. }
  - rewrite <- Hc1. by apply IH.
  - destruct (run_dead _ _ Hrun Hnd1 Hd1) as [Hd2 Hc2].
    right. split; [by rewrite Hc2 | done].
Qed.

(** A destruction request stays until the flush, which honours it. *)
Lemma systemUpdate_keeps_request sys dt (rt : Runtime G) :
  In id (pendingDestroy (world rt)) →
  In id (pendingDestroy (world (systemUpdate sys dt rt))).
Proof.
  intros Hin. destruct sys as [s|ended|hits|]; simpl.
  - by destruct (updateEntities s (entities (world rt)) (game rt)).
  - done.
  - by destruct (applyHits hits (entities (world rt))).
  - destruct (resolveEntities dt (entities (world rt))) as [[es ev] ds].
    simpl. apply in_or_app. by left.
Qed.

Lemma runSystems_keeps_request systems dt (rt : Runtime G) :
  In id (pendingDestroy (world rt)) →
  In id (pendingDestroy (world (runSystems systems dt rt))).
Proof.
  revert rt. induction systems as [|sys systems IH]; intros rt Hin; [done|].
  simpl. by apply IH, systemUpdate_keeps_request.
Qed.

Lemma World_update_destroys systems dt (rt : Runtime G) :
  In id (pendingDestroy (world rt)) →
  getEntity id (entities (world (World_update systems dt rt))) = None.
Proof.
  intros Hin. unfold World_update, flushRuntime. cbn [world].
  rewrite getEntity_flush.
  assert (existsb (Nat.eqb id)
            (pendingDestroy (world (runSystems systems dt rt))) = true) as ->;
    [|done].
  apply existsb_exists. exists id. split; [|apply Nat.eqb_refl].
  by apply runSystems_keeps_request.
Qed.
End DeathOnce.

Lemma run_NoDup {G : Type} `{GameController G} allowed (rt rt' : Runtime G) :
  rtc (step allowed) rt rt' →
  NoDup (entities (world rt)).*1 → NoDup (entities (world rt')).*1.
Proof.
  induction 1 as [rt0|rt0 rt1 rt2 Hstep _ IH]; intros Hnd; [done|].
  apply IH. by eapply step_NoDup.
Qed.

(** C6.  Over any run of system updates and flushes, the [onDeath]
    callback of an entity is called at most once; after the call the
    entity, if still in the store, is Dead, and for a Dead entity no call is
    made (Dead is terminal).  The call is made exactly when the health
    resolution takes [current] from positive to not positive: that update
    makes one call, requests the entity's destruction, and after the flush
    that ends the frame, whatever systems run in between, the entity is no
    longer in the store. *)
Theorem onDeath_fires_once {G : Type} `{GameController G}
    (id : EntityId) (rt rt' : Runtime G) :
  NoDup (entities (world rt)).*1 →
  rtc (step anySystem) rt rt' →
  deathCount id (events rt') ≤ S (deathCount id (events rt)) ∧
  (deathCount id (events rt') ≠ deathCount id (events rt) →
     deadIfPresent id (entities (world rt'))) ∧
  (deadIfPresent id (entities (world rt)) →
     deathCount id (events rt') = deathCount id (events rt)) ∧
  (∀ dt h cb,
     healthOf id (entities (world rt')) = Some h → onDeath h = Some cb →
     (0 < max h)%Qc → (0 < current h)%Qc →
     (current (resolveHealth dt h).1 <= 0)%Qc →
     let rt1 := systemUpdate SHealth dt rt' in
     deathCount id (events rt1) = S (deathCount id (events rt')) ∧
     In id (pendingDestroy (world rt1)) ∧
     ∀ systems dt',
       getEntity id (entities (world (World_update systems dt' rt1))) = None).
Proof.
  intros Hnd Hrun. split; [|split; [|split]].
  - destruct (run_death_once id _ _ Hrun Hnd) as [->|[-> _]]; lia.
  - intros Hne. by destruct (run_death_once id _ _ Hrun Hnd) as [?|[_ ?]].
  - intros Hdead. by apply (run_dead id _ _ Hrun Hnd Hdead).
  - intros dt h cb Hh Hcb Hmax Hcur Hcur' rt1.
    assert (Hdied : (resolveHealth dt h).2 = true).
    { apply resolveHealth_died. repeat split.
      - by apply leb_gt.
      - by apply leb_gt.
      - by apply leb_le. }
    pose proof (run_NoDup _ _ _ Hrun Hnd) as Hnd'.
    pose proof (deathCount_resolveEntities dt id _ Hnd') as Hc.
    pose proof (resolveEntities_schedules dt id h _ Hh Hdied) as Hsched.
    rewrite Hh, Hdied in Hc. unfold deathEvents in Hc. rewrite Hcb in Hc.
    assert (Hin : In id (pendingDestroy (world rt1))).
    { subst rt1. simpl.
      destruct (resolveEntities dt (entities (world rt'))) as [[es ev] ds].
      simpl in *. apply in_or_app. by right. }
    split; [|split; [exact Hin|]].
    + subst rt1. simpl.
      destruct (resolveEntities dt (entities (world rt'))) as [[es ev] ds].
      simpl in *. rewrite deathCount_app, Hc. lia.
    + intros systems dt'. by apply World_update_destroys.
Qed.

Lemma arena_NoDup : NoDup arena.*1.
Proof. apply (bool_decide_unpack _). by vm_compute. Qed.

Lemma onDeath_fires_once_witness :
  let rt := runtimeOf arena "playing" in
  let rt' := systemUpdate (SDamage [fatalHit]) (num 1 60) rt in
  let rt1 := systemUpdate SHealth (num 1 60) rt' in
  deathCount 7 (events rt1) = 1 ∧
  In 7 (pendingDestroy (world rt1)) ∧
  getEntity 7 (entities (world (World_update [SInput noKeys] (num 1 60) rt1)))
  = None.
Proof.
  intros rt rt' rt1.
  assert (Hrun : rtc (step anySystem) rt rt').
  { apply rtc_once. by apply step_system. }
  destruct (@onDeath_fires_once _ StringController.controller
              7 rt rt' arena_NoDup Hrun) as (_ & _ & _ & Hdeath).
  destruct (Hdeath (num 1 60)
              {| current := num 3 1; max := num 10 1; pendingDamage := num 5 1;
                 recentlyHitBy := Some {["a1"%string]};
                 invulnerableCooldown := Some (num 1 2);
                 invulnerableRemaining := 0;
                 onDeath := Some "dropLoot"%string |}
              "dropLoot"%string)
    as (Hcount & Hin & Hgone).
  - vm_compute. repeat f_equal; apply Qc_is_canon; reflexivity.
  - reflexivity.
  - qc_compare.
  - qc_compare.
  - qc_compare.
  - split; [exact Hcount|]. split; [exact Hin|]. apply Hgone.
Defined.

(** ** The scenarios of the specification, run on the model *)

(** Scenario A: a hit of four on the fresh entity, repeated within the
    frame, is applied once. *)
Example scenario_A :
  let rt := runFrames [combatFrame [hitA1; hitA1]] (runtimeOf arena "playing") in
  (this ∘ current <$> healthOf 8 (entities (world rt))) = Some (6 # 1)%Q ∧
  (this ∘ invulnerableRemaining <$> healthOf 8 (entities (world rt)))
  = Some (1 # 2)%Q ∧
  (alreadyHitBy "a1" <$> healthOf 8 (entities (world rt))) = Some true ∧
  damageCount 8 "a1" (events rt) = 1.
Proof. vm_compute. done. Qed.

(** Scenario B: after 0.6 s without hits the entity is vulnerable again and
    a hit of attack a2 applies. *)
Example scenario_B :
  let rt := runFrames [combatFrame [hitA1];
                       ([SInput noKeys; SLifespan ∅; SDamage []; SHealth], num 6 10)]
              (runtimeOf arena "playing") in
  let rt' := runFrames [combatFrame [hitA2]] rt in
  (isInvulnerable <$> healthOf 8 (entities (world rt))) = Some false ∧
  (this ∘ current <$> healthOf 8 (entities (world rt'))) = Some (2 # 1)%Q ∧
  damageCount 8 "a2" (events rt') = 1.
Proof. vm_compute. done. Qed.

(** Scenario C: a hit of five on three points of health. *)
Example scenario_C :
  let rt := runtimeOf arena "playing" in
  let mid := runSystems [SInput noKeys; SLifespan ∅; SDamage [fatalHit]; SHealth]
               (num 1 60) rt in
  (this ∘ current <$> healthOf 7 (entities (world mid))) = Some (0 # 1)%Q ∧
  events mid = [Damaged 7 "a1" (num 5 1); OnDeath 7 "dropLoot"] ∧
  pendingDestroy (world mid) = [7] ∧
  getEntity 7 (entities (world (flushRuntime mid))) = None.
Proof.
  vm_compute. repeat split.
Qed.

(** * Further properties of InputSystem.ts *)

(** ** The key listeners *)

Lemma has_keydown (c c' : string) (s : InputSystem) :
  has (keydown c s) c' = String.eqb c c' || has s c'.
Proof.
  unfold has, keydown. simpl. destruct (String.eqb c c') eqn:E; simpl.
  - apply String.eqb_eq in E as ->. apply bool_decide_eq_true.
    apply elem_of_union. left. by apply elem_of_singleton.
  - apply String.eqb_neq in E. apply bool_decide_ext.
    rewrite elem_of_union, elem_of_singleton. split; [|by right].
    intros [Heq|Hin]; [by subst|done].
Qed.

Lemma has_keyup (c c' : string) (s : InputSystem) :
  has (keyup c s) c' = negb (String.eqb c c') && has s c'.
Proof.
  unfold has, keyup. simpl. destruct (String.eqb c c') eqn:E; simpl.
  - apply String.eqb_eq in E as ->. apply bool_decide_eq_false.
    rewrite elem_of_difference, elem_of_singleton. by intros [_ ?].
  - apply String.eqb_neq in E. apply bool_decide_ext.
    rewrite elem_of_difference, elem_of_singleton. split; [by intros [? _]|].
    intros Hin. split; [done|]. by intros ->.
Qed.

Lemma has_handleKey (ev : KeyEvent) (c : string) (s : InputSystem) :
  has (handleKey ev s) c
  = if String.eqb (eventCode ev) c then isKeyDown ev else has s c.
Proof.
  destruct ev as [c0|c0]; simpl.
  - rewrite has_keydown. by destruct (String.eqb c0 c).
  - rewrite has_keyup. by destruct (String.eqb c0 c).
Qed.

(** X1.  After any sequence of key events a key is held exactly when its
    most recent event is a [keydown]; a key without an event is held
    exactly when it was held before.  In particular, starting from the
    empty set of the constructor, a key that never had an event is not
    held. *)
Theorem keys_follow_last_event (evs : list KeyEvent) (s : InputSystem) (c : string) :
  has (dispatch evs s) c = default (has s c) (lastEvent c evs) ∧
  (lastEvent c evs = None → has (dispatch evs noKeys) c = false).
Proof.
  assert (Hgen : ∀ s, has (dispatch evs s) c = default (has s c) (lastEvent c evs)).
  { clear s. induction evs as [|ev rest IH]; intros s; [done|].
    change (dispatch (ev :: rest) s) with (dispatch rest (handleKey ev s)).
    rewrite IH. simpl. destruct (lastEvent c rest) as [b|]; [done|].
    rewrite has_handleKey. by destruct (String.eqb (eventCode ev) c). }
  split; [apply Hgen|]. intros Hnone. rewrite Hgen, Hnone. simpl.
  unfold has, noKeys. simpl. apply bool_decide_eq_false. apply not_elem_of_empty.
Qed.

Lemma keys_follow_last_event_witness :
  has (dispatch [KeyDown "Space"; KeyDown "KeyW"; KeyUp "Space"; KeyDown "Space";
                 KeyUp "KeyW"] noKeys) "KeyD" = false.
Proof.
  apply (keys_follow_last_event _ noKeys "KeyD"). reflexivity.
Defined.

Lemma InputSystem_eq (s s' : InputSystem) : keys s = keys s' → s = s'.
Proof. destruct s, s'. simpl. by intros ->. Qed.

Lemma keydown_held (c : string) (s : InputSystem) :
  has s c = true → keydown c s = s.
Proof.
  unfold has. rewrite bool_decide_eq_true. intros Hin.
  apply InputSystem_eq. simpl. apply set_eq. intros x.
  rewrite elem_of_union, elem_of_singleton. split; [|by right].
  intros [->|Hx]; done.
Qed.

Lemma keyup_not_held (c : string) (s : InputSystem) :
  has s c = false → keyup c s = s.
Proof.
  unfold has. rewrite bool_decide_eq_false. intros Hnin.
  apply InputSystem_eq. simpl. apply set_eq. intros x.
  rewrite elem_of_difference, elem_of_singleton. split; [by intros [? _]|].
  intros Hx. split; [done|]. by intros ->.
Qed.

Lemma keyup_keydown (c : string) (s : InputSystem) :
  keyup c (keydown c s) = keyup c s.
Proof.
  apply InputSystem_eq. simpl. apply set_eq. intros x.
  rewrite !elem_of_difference, elem_of_union, elem_of_singleton.
  split; [|by intros [? ?]; split; [right|]].
  intros [[->|Hx] Hne]; done.
Qed.

Lemma keydown_keyup (c : string) (s : InputSystem) :
  keydown c (keyup c s) = keydown c s.
Proof.
  apply InputSystem_eq. simpl. apply set_eq. intros x.
  rewrite !elem_of_union, elem_of_difference, elem_of_singleton.
  split; [intros [->|[Hx _]]; [by left | by right]|].
  intros [->|Hx]; [by left|].
  destruct (decide (x = c)) as [->|Hne]; [by left | by right].
Qed.

(** X2.  Key events that leave a key where it was are not seen by the next
    update, for any store and controller: a repeated [keydown] of a held key
    (keyboard auto-repeat), a [keyup] of a key that is not held, a whole tap
    ([keydown] then [keyup]) of a key that was not held, and a release and
    re-press of a held key.  So a tap between two frames fires nothing, and
    a re-press between two frames does not fire [attack] or [dash] again. *)
Theorem events_between_frames_unseen {G : Type} `{GameController G}
    (c : string) (s : InputSystem) (es : Entities) (g : G) :
  (has s c = true →
     updateEntities (dispatch [KeyDown c] s) es g = updateEntities s es g ∧
     updateEntities (dispatch [KeyUp c; KeyDown c] s) es g = updateEntities s es g) ∧
  (has s c = false →
     updateEntities (dispatch [KeyUp c] s) es g = updateEntities s es g ∧
     updateEntities (dispatch [KeyDown c; KeyUp c] s) es g = updateEntities s es g).
Proof.
  unfold dispatch. simpl. split; intros Hc.
  - by rewrite keydown_keyup, !keydown_held.
  - by rewrite keyup_keydown, !keyup_not_held.
Qed.

Lemma events_between_frames_unseen_witness :
  updateEntities (G:=StringController.state)
    (dispatch [KeyDown "Space"; KeyUp "Space"] noKeys) onePlayer "playing"%string
  = updateEntities noKeys onePlayer "playing"%string.
Proof.
  apply (@events_between_frames_unseen _ StringController.controller
           "Space" noKeys onePlayer "playing"%string).
  reflexivity.
Defined.

(** ** What an update depends on, and what it leaves alone *)

Lemma updateInput_agree (s s' : InputSystem) (i : InputComponent) :
  (∀ c, In c boundCodes → has s c = has s' c) →
  updateInput s i = updateInput s' i ∧ escapeEdge s i = escapeEdge s' i.
Proof.
  intros Hag. unfold updateInput, escapeEdge.
  rewrite !(Hag "Escape"%string), !(Hag "ShiftLeft"%string),
    !(Hag "ShiftRight"%string), !(Hag "KeyW"%string), !(Hag "ArrowUp"%string),
    !(Hag "KeyS"%string), !(Hag "ArrowDown"%string), !(Hag "KeyA"%string),
    !(Hag "ArrowLeft"%string), !(Hag "KeyD"%string), !(Hag "ArrowRight"%string),
    !(Hag "Space"%string); [done|simpl; tauto..].
Qed.

(** X3.  The result of an update, on the store and on the game controller,
    depends on the held keys only through the twelve codes it looks up (Escape, the
    two Shift keys, W/A/S/D, the arrows, Space): two key sets that agree on
    these give the same result, and an event of any other key changes
    nothing of the next update. *)
Theorem update_depends_on_bound_keys {G : Type} `{GameController G}
    (s s' : InputSystem) (es : Entities) (g : G) :
  ((∀ c, In c boundCodes → has s c = has s' c) →
     updateEntities s es g = updateEntities s' es g) ∧
  (∀ ev, ¬ In (eventCode ev) boundCodes →
     updateEntities (handleKey ev s) es g = updateEntities s es g).
Proof.
  assert (Hgen : ∀ s s' : InputSystem,
            (∀ c, In c boundCodes → has s c = has s' c) →
            updateEntities s es g = updateEntities s' es g).
  { clear s s'. intros s s' Hag. revert g.
    induction es as [|[i e] rest IH]; intros g; [done|]. simpl.
    assert (updateEntity s e g = updateEntity s' e g) as ->.
    { unfold updateEntity. destruct (input e) as [i0|]; [|done].
      by destruct (updateInput_agree s s' i0 Hag) as [-> ->]. }
    destruct (updateEntity s' e g) as [e' g1]. by rewrite IH. }
  split; [apply Hgen|]. intros ev Hunbound. apply Hgen. intros c Hc.
  rewrite has_handleKey. destruct (String.eqb (eventCode ev) c) eqn:E; [|done].
  apply String.eqb_eq in E. by subst.
Qed.

Lemma update_depends_on_bound_keys_witness :
  updateEntities (G:=StringController.state)
    (handleKey (KeyDown "KeyQ") spaceHeld) twoPlayers "playing"%string
  = updateEntities spaceHeld twoPlayers "playing"%string.
Proof.
  apply (@update_depends_on_bound_keys _ StringController.controller
           spaceHeld spaceHeld twoPlayers "playing"%string).
  simpl. intros Hin. repeat destruct Hin as [Hin|Hin]; try discriminate. done.
Defined.

Section UpdateShape.
Context {G : Type} `{GameController G}.

Lemma updateEntities_map s es (g : G) :
  (updateEntities s es g).1 = updatedEntry s <$> es.
Proof.
  revert g. induction es as [|[i e] rest IH]; intros g; [done|].
  rewrite updateEntities_cons, IH. csimpl. f_equal.
  unfold updatedEntry, updateEntity. simpl.
  destruct e as [[i0|] h]; done.
Qed.

Lemma updateEntities_no_holders s es (g : G) :
  inputHolders es = 0 → updateEntities s es g = (es, g).
Proof.
  revert g. induction es as [|[i e] rest IH]; intros g; [done|].
  rewrite inputHolders_cons. unfold hasInput. simpl.
  destruct (input e) as [i0|] eqn:E; [discriminate|]. simpl. intros Hrest.
  unfold updateEntity. rewrite E. by rewrite IH.
Qed.
End UpdateShape.

(** X4.  An update changes the store entry by entry and in place: the
    identifiers and their order stay, the Health component of every entity
    stays, an entity without an Input component stays as it is, and an
    entity with one gets exactly the recomputed component.  No entity is
    added, removed or moved. *)
Theorem update_keeps_store_shape {G : Type} `{GameController G}
    (s : InputSystem) (es : Entities) (g : G) :
  (updateEntities s es g).1 = updatedEntry s <$> es ∧
  (updateEntities s es g).1.*1 = es.*1 ∧
  (∀ k id e, es !! k = Some (id, e) →
     ∃ e', (updateEntities s es g).1 !! k = Some (id, e') ∧
           health e' = health e ∧
           input e' = updateInput s <$> input e ∧
           (input e = None → e' = e)).
Proof.
  split; [apply updateEntities_map|]. split.
  - rewrite updateEntities_map, <- list_fmap_compose. by apply list_fmap_ext.
  - intros k id e Hk. exists (updatedEntry s (id, e)).2. split.
    { rewrite updateEntities_map. unfold Entities in *. by rewrite list_lookup_fmap, Hk. }
    simpl. repeat split. destruct e as [i h]. simpl. by intros ->.
Qed.

Lemma update_keeps_store_shape_witness :
  ∃ e', (updateEntities (G:=StringController.state)
           spaceHeld arena "playing"%string).1 !! 1 = Some (7, e') ∧
        e' = {| input := None; health := Some wounded |}.
Proof.
  destruct (@update_keeps_store_shape _ StringController.controller
              spaceHeld arena "playing"%string) as (_ & _ & Hk).
  destruct (Hk 1 7 {| input := None; health := Some wounded |} eq_refl)
    as (e' & He' & _ & _ & Hsame).
  exists e'. split; [exact He'|]. by apply Hsame.
Defined.

(** X5.  Without an entity that holds an Input component, an update does
    nothing at all: the store is unchanged and neither [pauseGame] nor
    [resumeGame] is called, whatever keys are held; Escape cannot pause such
    a game. *)
Theorem update_without_input_holders {G : Type} `{GameController G}
    (s : InputSystem) (es : Entities) (g : G) :
  inputHolders es = 0 → updateEntities s es g = (es, g).
Proof. apply updateEntities_no_holders. Qed.

Lemma update_without_input_holders_witness :
  updateEntities (G:=StringController.state) escapeHeld
    [(7, {| input := None; health := Some wounded |})] "playing"%string
  = ([(7, {| input := None; health := Some wounded |})], "playing"%string).
Proof.
  apply (@update_without_input_holders _ StringController.controller). reflexivity.
Defined.

(** ** Holding the same keys *)

Lemma updateInput_twice_settled (s : InputSystem) (i : InputComponent) :
  settled s (updateInput s (updateInput s i)).
Proof.
  unfold settled, updateInput, attackKeyDown, dashKeyDown, escapeDown. simpl.
  repeat split; apply andb_negb_r.
Qed.

Section HeldKeys.
Context {G : Type} `{GameController G}.

Lemma allSettled_fixed s es (g : G) :
  allSettled s es → updateEntities s es g = (es, g).
Proof.
  intros Hall. revert g.
  induction Hall as [|[id e] rest He Hrest IH]; intros g; [done|]. simpl.
  assert (updateEntity s e g = (e, g)) as ->.
  { unfold updateEntity. destruct e as [[i|] h]; simpl in *; [|done].
    pose proof (He i eq_refl) as Hs.
    rewrite (proj2 (updateInput_fixed_iff_settled s i) Hs).
    unfold escapeEdge. destruct Hs as (_&_&_&_&_&_&_&_&->).
    unfold escapeDown. by rewrite andb_negb_r. }
  by rewrite IH.
Qed.

Lemma allSettled_after_two s es (g g' : G) :
  allSettled s (updateEntities s (updateEntities s es g).1 g').1.
Proof.
  rewrite !updateEntities_map. unfold allSettled.
  induction es as [|[id e] rest IH]; csimpl; [constructor|].
  constructor; [|exact IH]. simpl. intros i.
  destruct (input e) as [i0|]; simpl; [|done]. intros [= <-].
  apply updateInput_twice_settled.
Qed.
End HeldKeys.

(** X6.  When the same keys stay held, two updates bring every Input
    component to rest: after them every component is settled ([attack] and
    [dash] false, shadow flags and directions equal to the key states), and
    any number of further updates with these keys changes neither the store
    nor the game controller's state.  Two updates are needed: after the
    first one [attack] may still be true. *)
Theorem held_keys_settle_after_two_updates {G : Type} `{GameController G}
    (s : InputSystem) (st : Entities * G) (n : nat) :
  inputFrames (s :: s :: replicate n s) st = inputFrames [s; s] st ∧
  allSettled s (inputFrames [s; s] st).1 ∧
  ∀ id i, inputOf id (inputFrames (s :: s :: replicate n s) st).1 = Some i →
          attack i = false ∧ dash i = false.
Proof.
  assert (Hrest : allSettled s (inputFrames [s; s] st).1).
  { destruct st as [es g]. unfold inputFrames. simpl. apply allSettled_after_two. }
  assert (Hfix : inputFrames (s :: s :: replicate n s) st = inputFrames [s; s] st).
  { change (s :: s :: replicate n s) with ([s; s] ++ replicate n s).
    unfold inputFrames at 1. rewrite foldl_app.
    fold (inputFrames [s; s] st).
    destruct (inputFrames [s; s] st) as [es g]. simpl in Hrest.
    induction n as [|n IH]; [done|]. simpl. by rewrite allSettled_fixed. }
  split; [exact Hfix|]. split; [exact Hrest|].
  intros id i. rewrite Hfix. unfold inputOf.
  destruct (getEntity id (inputFrames [s; s] st).1) as [e|] eqn:He; [|done].
  simpl. intros Hi. apply getEntity_elem_of in He.
  unfold allSettled in Hrest. rewrite list.Forall_forall in Hrest.
  destruct (Hrest _ He i Hi) as (_&_&_&_&Ha&Hd&_). done.
Qed.

(** After one update with Space newly held, [attack] is true. *)
Example one_update_is_not_enough :
  (attack <$> inputOf 0 (inputFrames (G:=StringController.state)
                           [spaceHeld] (onePlayer, "playing"%string)).1)
  = Some true.
Proof. vm_compute. reflexivity. Qed.

(** ** The parity of the toggles *)

Section Parity.
Context {G : Type} `{GameController G}.
Hypothesis pause_leaves_playing : ∀ g : G, isPlaying (pauseGame g) = false.
Hypothesis resume_enters_playing : ∀ g : G, isPlaying (resumeGame g) = true.

Lemma isPlaying_togglePause (g : G) :
  isPlaying (togglePause g) = negb (isPlaying g).
Proof.
  unfold togglePause. fold (isPlaying g).
  destruct (isPlaying g); simpl; [apply pause_leaves_playing | apply resume_enters_playing].
Qed.

Lemma isPlaying_iter_toggle (n : nat) (g : G) :
  isPlaying (Nat.iter n togglePause g) = xorb (isPlaying g) (Nat.odd n).
Proof.
  induction n as [|n IH].
  - simpl. by rewrite xorb_false_r.
  - rewrite Nat.odd_succ, <- Nat.negb_odd. simpl.
    rewrite isPlaying_togglePause, IH.
    by destruct (isPlaying g), (Nat.odd n).
Qed.
End Parity.

(** X7.  For a game controller whose [pauseGame] leaves the playing state
    and whose [resumeGame] enters it, one update changes whether the game is
    playing exactly when it takes the Escape branch an odd number of times;
    so a press of Escape (up on the previous update, down on this one)
    changes it exactly when the number of Input-holding entities is odd, and
    with an even number the game is left playing or paused as it was. *)
Theorem escape_press_parity {G : Type} `{GameController G}
    (s : InputSystem) (es : Entities) (g : G) :
  (∀ g : G, isPlaying (pauseGame g) = false) →
  (∀ g : G, isPlaying (resumeGame g) = true) →
  isPlaying (updateEntities s es g).2
  = xorb (isPlaying g) (Nat.odd (escapeEdges s es)) ∧
  (∀ released, escapeDown released = false → escapeDown s = true →
     let st := updateEntities released es g in
     isPlaying (updateEntities s st.1 st.2).2
     = xorb (isPlaying g) (Nat.odd (inputHolders es))).
Proof.
  intros Hp Hr. split.
  - by rewrite game_updateEntities, isPlaying_iter_toggle.
  - intros released Hup Hdown st. subst st.
    rewrite game_updateEntities, isPlaying_iter_toggle by done.
    rewrite escapeEdges_after_update, Hup, Hdown. simpl.
    rewrite game_updateEntities, isPlaying_iter_toggle by done.
    assert (escapeEdges released es = 0) as ->; [|by rewrite xorb_false_r].
    unfold escapeEdges. induction es as [|[i e] rest IH]; [done|]. simpl.
    unfold takesEscapeBranch at 1, escapeEdge. simpl.
    fold (escapeDown released). rewrite Hup. simpl.
    by destruct (input e).
Qed.

Lemma escape_press_parity_witness :
  let st := updateEntities (G:=StringController.state)
              noKeys twoPlayers "playing"%string in
  isPlaying (updateEntities escapeHeld st.1 st.2).2 = true.
Proof.
  apply (proj2 (@escape_press_parity _ StringController.controller
                  escapeHeld twoPlayers "playing"%string
                  (λ _, eq_refl) (λ _, eq_refl)) noKeys eq_refl eq_refl).
Defined.

(** * Further properties of Game.ts *)

(** ** The frame loop over many frames *)

Section LoopFacts.
Context {P : Type} `{HitPauseService P} {W : Type}.
Variable worldUpdate : Qc → W → W.

Lemma animate_actions raw (l : Loop P W) :
  actions (animate worldUpdate raw l)
  = actions l ++ frameCalls (hitPauseUpdate (hitPause l) raw).1.
Proof.
  unfold animate, frameCalls.
  destruct (hitPauseUpdate (hitPause l) raw) as [delta p]. simpl.
  destruct (ltb 0 delta); simpl; by rewrite <- ?app_assoc.
Qed.

Lemma animate_hitPause raw (l : Loop P W) :
  hitPause (animate worldUpdate raw l) = (hitPauseUpdate (hitPause l) raw).2.
Proof.
  unfold animate.
  destruct (hitPauseUpdate (hitPause l) raw) as [delta p]. simpl.
  by destruct (ltb 0 delta).
Qed.

Lemma runLoop_actions raws (l : Loop P W) :
  actions (runLoop worldUpdate raws l)
  = actions l ++ flat_map frameCalls (scaledDeltas (hitPause l) raws).
Proof.
  revert l. induction raws as [|raw rest IH]; intros l; simpl.
  - by rewrite app_nil_r.
  - unfold runLoop in *. simpl. rewrite IH, animate_actions, animate_hitPause.
    by rewrite <- app_assoc.
Qed.

Lemma runLoop_world raws (l : Loop P W) :
  loopWorld (runLoop worldUpdate raws l)
  = foldl (λ w delta, worldUpdate delta w) (loopWorld l)
      (List.filter (ltb 0) (scaledDeltas (hitPause l) raws)).
Proof.
  revert l. induction raws as [|raw rest IH]; intros l; [done|].
  unfold runLoop in *. simpl.
  rewrite IH, animate_hitPause, loopWorld_animate.
  by destruct (ltb 0 (hitPauseUpdate (hitPause l) raw).1).
Qed.

Lemma scaledDeltas_length p raws : length (scaledDeltas p raws) = length raws.
Proof. revert p. induction raws as [|raw rest IH]; intros p; simpl; auto. Qed.
End LoopFacts.

Lemma count_frameCalls (deltas : list Qc) :
  length (List.filter isRender (flat_map frameCalls deltas)) = length deltas ∧
  length (List.filter isRequest (flat_map frameCalls deltas)) = length deltas ∧
  length (List.filter isWorldUpdate (flat_map frameCalls deltas))
  = length (List.filter (ltb 0) deltas) ∧
  length (List.filter isMinimapUpdate (flat_map frameCalls deltas))
  = length (List.filter (ltb 0) deltas).
Proof.
  induction deltas as [|d rest (IH1 & IH2 & IH3 & IH4)]; [done|].
  simpl. rewrite !List.filter_app, !length_app, IH1, IH2, IH3, IH4.
  unfold frameCalls. by destruct (ltb 0 d).
Qed.

(** X8.  Over any number of frames, whatever the deltas: every frame calls
    [renderer.render] once and requests the next frame once;
    [World.update] is called on exactly the frames whose delta after the
    hit-pause service is positive, and [minimap.update] on exactly the same
    frames.  The calls of the run are the calls of the frames one after the
    other, each frame in the order update, minimap, render, request. *)
Theorem every_frame_renders {P : Type} `{HitPauseService P} {W : Type}
    (worldUpdate : Qc → W → W) (raws : list Qc) (l : Loop P W) :
  let deltas := scaledDeltas (hitPause l) raws in
  let calls := drop (length (actions l)) (actions (runLoop worldUpdate raws l)) in
  calls = flat_map frameCalls deltas ∧
  length (List.filter isRender calls) = length raws ∧
  length (List.filter isRequest calls) = length raws ∧
  length (List.filter isWorldUpdate calls) = length (List.filter (ltb 0) deltas) ∧
  length (List.filter isMinimapUpdate calls) = length (List.filter (ltb 0) deltas).
Proof.
  intros deltas calls.
  assert (Hcalls : calls = flat_map frameCalls deltas).
  { subst calls. by rewrite runLoop_actions, drop_app_length. }
  split; [exact Hcalls|]. rewrite Hcalls.
  destruct (count_frameCalls deltas) as (H1 & H2 & H3 & H4).
  subst deltas. rewrite scaledDeltas_length in H1, H2. done.
Qed.

(** X9.  The world after a run of frames is the world after
    [World.update] with the positive deltas of the run, in order: a frame
    whose delta is zero or negative leaves no trace in the world, as if it
    had not happened. *)
Theorem world_sees_positive_deltas {P : Type} `{HitPauseService P} {W : Type}
    (worldUpdate : Qc → W → W) (raws : list Qc) (l : Loop P W) :
  loopWorld (runLoop worldUpdate raws l)
  = foldl (λ w delta, worldUpdate delta w) (loopWorld l)
      (List.filter (ltb 0) (scaledDeltas (hitPause l) raws)) ∧
  (Forall (λ delta, (delta <= 0)%Qc) (scaledDeltas (hitPause l) raws) →
   loopWorld (runLoop worldUpdate raws l) = loopWorld l).
Proof.
  split; [apply runLoop_world|]. intros Hall. rewrite runLoop_world.
  assert (List.filter (ltb 0) (scaledDeltas (hitPause l) raws) = []) as ->; [|done].
  induction Hall as [|d rest Hd Hrest IH]; [done|]. simpl.
  by rewrite (proj2 (ltb_ge _ _) Hd).
Qed.

Lemma world_sees_positive_deltas_witness :
  loopWorld (runLoop (inputOnlyUpdate escapeHeld)
               [0%Qc; num (-1) 60; 0%Qc] pausedLoop)
  = loopWorld pausedLoop.
Proof.
  apply (world_sees_positive_deltas (inputOnlyUpdate escapeHeld)
           [0%Qc; num (-1) 60; 0%Qc] pausedLoop).
  repeat constructor; qc_compare.
Defined.

(** ** The pending frame request *)

Section RequestFacts.
Context {P : Type} `{HitPauseService P} {W : Type}.
Variable worldUpdate : Qc → W → W.

Lemma fireFrame_keeps_one_request h raw (fl : FrameLoop P W) :
  oneRequestPending fl → oneRequestPending (fireFrame worldUpdate h raw fl).
Proof.
  intros (h0 & Hid & Hq). unfold fireFrame. rewrite Hq. simpl.
  destruct (Nat.eqb h h0) eqn:E; simpl; [|by exists h0].
  apply Nat.eqb_eq in E as ->. unfold animateCallback. simpl.
  rewrite Hq. simpl. rewrite Nat.eqb_refl. simpl.
  by exists (nextHandle (browser fl)).
Qed.

Lemma fireFrames_keeps_one_request fs (fl : FrameLoop P W) :
  oneRequestPending fl → oneRequestPending (fireFrames worldUpdate fs fl).
Proof.
  revert fl. induction fs as [|[h raw] rest IH]; intros fl Hone; [done|].
  simpl. by apply IH, fireFrame_keeps_one_request.
Qed.

Lemma fireFrames_nothing_pending fs (fl : FrameLoop P W) :
  pendingFrames (browser fl) = [] → fireFrames worldUpdate fs fl = fl.
Proof.
  intros Hq. induction fs as [|[h raw] rest IH]; [done|].
  simpl. unfold fireFrame at 1. by rewrite Hq.
Qed.
End RequestFacts.

(** X11.  From the first [animate] of [initGame] on, and after any frames
    the browser runs (handles that are not queued run nothing), exactly one
    frame request is queued and [animationFrameId] is its handle.  So the
    [cancelAnimationFrame(animationFrameId)] of the cleanup empties the
    queue, and after it no frame runs any more: the loop has stopped, with
    its world as the last frame left it. *)
Theorem cleanup_stops_the_loop {P : Type} `{HitPauseService P} {W : Type}
    (worldUpdate : Qc → W → W) (raw0 : Qc) (fs : list (nat * Qc))
    (fl0 : FrameLoop P W) :
  pendingFrames (browser fl0) = [] →
  let fl := fireFrames worldUpdate fs (animateCallback worldUpdate raw0 fl0) in
  (∃ h, animationFrameId fl = Some h ∧ pendingFrames (browser fl) = [h]) ∧
  pendingFrames (browser (cancelLoop fl)) = [] ∧
  frames (cancelLoop fl) = frames fl ∧
  ∀ fs', fireFrames worldUpdate fs' (cancelLoop fl) = cancelLoop fl.
Proof.
  intros Hq fl.
  assert (Hone : oneRequestPending fl).
  { apply fireFrames_keeps_one_request. unfold animateCallback. simpl.
    rewrite Hq. by exists (nextHandle (browser fl0)). }
  split; [exact Hone|]. destruct Hone as (h & Hid & Hp).
  assert (Hempty : pendingFrames (browser (cancelLoop fl)) = []).
  { unfold cancelLoop. rewrite Hid. simpl. rewrite Hp. simpl.
    by rewrite Nat.eqb_refl. }
  split; [exact Hempty|]. split.
  - unfold cancelLoop. by rewrite Hid.
  - intros fs'. by apply fireFrames_nothing_pending.
Qed.

Lemma cleanup_stops_the_loop_witness :
  let fl0 : FrameLoop unit (Entities * string) :=
    {| frames := pausedLoop; animationFrameId := None;
       browser := {| nextHandle := 1; pendingFrames := [] |} |} in
  let fl := fireFrames (inputOnlyUpdate escapeHeld)
              [(1, num 1 60); (7, num 1 60); (2, num 1 60)]
              (animateCallback (inputOnlyUpdate escapeHeld) (num 1 60) fl0) in
  (∃ h, animationFrameId fl = Some h ∧ pendingFrames (browser fl) = [h]) ∧
  fireFrames (inputOnlyUpdate escapeHeld) [(3, num 1 60)] (cancelLoop fl)
  = cancelLoop fl.
Proof.
  intros fl0 fl.
  destruct (cleanup_stops_the_loop (inputOnlyUpdate escapeHeld) (num 1 60)
              [(1, num 1 60); (7, num 1 60); (2, num 1 60)] fl0 eq_refl)
    as (Hone & _ & _ & Hstop).
  split; [exact Hone | apply Hstop].
Defined.

(** ** Listeners left on the window *)

Lemma existsb_fresh ty f (ls : list (string * nat)) :
  Forall (λ l : string * nat, l.2 < f) ls → existsb (sameListener ty f) ls = false.
Proof.
  induction 1 as [|[ty' f'] rest Hlt _ IH]; [done|]. simpl. rewrite IH.
  unfold sameListener. simpl in *.
  assert (Nat.eqb f' f = false) as -> by (apply Nat.eqb_neq; lia).
  by destruct (String.eqb ty' ty).
Qed.

Lemma filter_fresh ty f (ls : list (string * nat)) :
  Forall (λ l : string * nat, l.2 < f) ls →
  List.filter (λ l, negb (sameListener ty f l)) ls = ls.
Proof.
  induction 1 as [|[ty' f'] rest Hlt _ IH]; [done|]. simpl. rewrite IH.
  unfold sameListener. simpl in *.
  assert (Nat.eqb f' f = false) as -> by (apply Nat.eqb_neq; lia).
  by destruct (String.eqb ty' ty).
Qed.

Lemma Forall_lt_weaken (ls : list (string * nat)) (n m : nat) :
  n ≤ m → Forall (λ l : string * nat, l.2 < n) ls →
  Forall (λ l : string * nat, l.2 < m) ls.
Proof. intros Hle. apply Forall_impl. intros l Hl. lia. Qed.

(** One [initGame] and its cleanup leave the window with the two key
    listeners of the input system, and nothing else new. *)
Lemma init_then_cleanup (w : Window) :
  wfWindow w →
  cleanupListeners (initGameListeners w).1 (initGameListeners w).2
  = {| nextClosure := 3 + nextClosure w;
       listeners := listeners w ++ [("keydown"%string, nextClosure w);
                                    ("keyup"%string, S (nextClosure w))] |}.
Proof.
  intros Hwf. destruct w as [n ls]. unfold wfWindow in Hwf. simpl in Hwf.
  unfold initGameListeners, constructInputSystem, newClosure, addEventListener,
    cleanupListeners, removeEventListener. simpl.
  rewrite (existsb_fresh _ n ls Hwf). simpl.
  assert (H1 : Forall (λ l : string * nat, l.2 < S n)
                 (ls ++ [("keydown"%string, n)])).
  { apply Forall_app. split; [by eapply Forall_lt_weaken; [|done]; lia|].
    repeat constructor. }
  rewrite (existsb_fresh _ (S n) _ H1). simpl.
  assert (H2 : Forall (λ l : string * nat, l.2 < S (S n))
                 ((ls ++ [("keydown"%string, n)]) ++ [("keyup"%string, S n)])).
  { apply Forall_app. split; [by eapply Forall_lt_weaken; [|done]; lia|].
    repeat constructor. }
  rewrite (existsb_fresh _ (S (S n)) _ H2). simpl.
  rewrite List.filter_app, (filter_fresh _ (S (S n)) _ H2). simpl.
  unfold sameListener. simpl. rewrite Nat.eqb_refl. simpl.
  by rewrite app_nil_r, <- app_assoc.
Qed.

Lemma playAndLeave_S (n : nat) (w : Window) :
  playAndLeave (S n) w
  = playAndLeave n (cleanupListeners (initGameListeners w).1 (initGameListeners w).2).
Proof. simpl. by destruct (initGameListeners w). Qed.

Lemma listenersOf_app ty n ls ls' :
  listenersOf ty {| nextClosure := n; listeners := ls ++ ls' |}
  = listenersOf ty {| nextClosure := n; listeners := ls |}
    + length (List.filter (λ l : string * nat, String.eqb l.1 ty) ls').
Proof. unfold listenersOf. simpl. by rewrite List.filter_app, length_app. Qed.

(** X12.  The cleanup removes the [resize] listener that its [initGame]
    registered and nothing else: the [keydown] and [keyup] listeners of the
    input system, arrow functions that nothing holds, stay on the window.
    After [n] rounds of [initGame] and cleanup the window has [n] more
    [keydown] and [n] more [keyup] listeners than before, and as many
    [resize] listeners as before. *)
Theorem cleanup_leaves_key_listeners (n : nat) (w : Window) :
  wfWindow w →
  listenersOf "keydown" (playAndLeave n w) = listenersOf "keydown" w + n ∧
  listenersOf "keyup" (playAndLeave n w) = listenersOf "keyup" w + n ∧
  listenersOf "resize" (playAndLeave n w) = listenersOf "resize" w ∧
  nextClosure (playAndLeave n w) = 3 * n + nextClosure w.
Proof.
  revert w. induction n as [|n IH]; intros w Hwf.
  - simpl. repeat split; lia.
  - rewrite playAndLeave_S, (init_then_cleanup w Hwf).
    set (w' := {| nextClosure := 3 + nextClosure w;
                  listeners := listeners w ++ [("keydown"%string, nextClosure w);
                                               ("keyup"%string, S (nextClosure w))] |}).
    assert (Hwf' : wfWindow w').
    { unfold wfWindow. simpl. apply Forall_app. split.
      - eapply Forall_lt_weaken; [|exact Hwf]. lia.
      - repeat constructor; simpl; lia. }
    destruct (IH _ Hwf') as (Hd & Hu & Hr & Hn).
    rewrite Hd, Hu, Hr, Hn. subst w'. rewrite !listenersOf_app. simpl.
    destruct w as [m ls]. unfold listenersOf. simpl. repeat split; lia.
Qed.

Lemma cleanup_leaves_key_listeners_witness :
  listenersOf "keydown" (playAndLeave 3 {| nextClosure := 0; listeners := [] |}) = 3 ∧
  listenersOf "resize" (playAndLeave 3 {| nextClosure := 0; listeners := [] |}) = 0.
Proof.
  destruct (cleanup_leaves_key_listeners 3 {| nextClosure := 0; listeners := [] |})
    as (Hd & _ & Hr & _).
  - constructor.
  - split; [exact Hd | exact Hr].
Defined.

(** ** The cleanup of the scene *)

Lemma traverse_In {A : Type} (callback : Object3D → list A) (scene : Object3D) (x : A) :
  In x (traverse callback scene) ↔ ∃ o, inGraph scene o ∧ In x (callback o).
Proof.
  split.
  - induction scene as [g m cs IH] using Object3D_ind. simpl.
    intros Hin. apply in_app_or in Hin as [Hself|Hsub].
    + exists (Object g m cs). split; [constructor | done].
    + apply in_flat_map in Hsub as (c & Hc & Hx).
      rewrite List.Forall_forall in IH.
      destruct (IH c Hc Hx) as (o & Ho & Hxo).
      exists o. split; [by eapply inGraph_child | done].
  - intros (o & Ho & Hx). induction Ho as [o|g m cs c o Hc Ho IH].
    + destruct o as [g m cs]. simpl. apply in_or_app. by left.
    + simpl. apply in_or_app. right. apply in_flat_map. exists c. auto.
Qed.

(** X13.  The traversal of the cleanup calls [dispose] on exactly the
    geometries and materials of the scene and of its descendants at any
    depth that have a [dispose] method: every call comes from such an
    object, and the geometry, the single material and every material of a
    material array of every such object are disposed. *)
Theorem scene_disposal_reaches_every_object (scene : Object3D) :
  (∀ call, In call (disposeScene scene) ↔
           ∃ o, inGraph scene o ∧ In call (disposeCallback o)) ∧
  (∀ o g, inGraph scene o → geometryOf o = Some g → hasDispose g = true →
          In (GeometryDispose (resource g)) (disposeScene scene)) ∧
  (∀ o m, inGraph scene o → materialOf o = SingleMaterial m →
          hasDispose m = true →
          In (MaterialDispose (resource m)) (disposeScene scene)) ∧
  (∀ o ms m, inGraph scene o → materialOf o = MaterialArray ms → In m ms →
             hasDispose m = true →
             In (MaterialDispose (resource m)) (disposeScene scene)) ∧
  (∀ r, In (GeometryDispose r) (disposeScene scene) →
        ∃ o g, inGraph scene o ∧ geometryOf o = Some g ∧
               resource g = r ∧ hasDispose g = true).
Proof.
  unfold disposeScene. split; [intros call; apply traverse_In|].
  split; [|split; [|split]].
  - intros o g Ho Hg Hd. apply traverse_In. exists o. split; [done|].
    unfold disposeCallback. rewrite Hg. apply in_or_app. left.
    unfold disposeIfCan. rewrite Hd. by left.
  - intros o m Ho Hm Hd. apply traverse_In. exists o. split; [done|].
    unfold disposeCallback. rewrite Hm. apply in_or_app. right.
    unfold disposeIfCan. rewrite Hd. by left.
  - intros o ms m Ho Hm Hin Hd. apply traverse_In. exists o. split; [done|].
    unfold disposeCallback. rewrite Hm. apply in_or_app. right.
    apply in_flat_map. exists m. split; [done|].
    unfold disposeIfCan. rewrite Hd. by left.
  - intros r Hin. apply traverse_In in Hin as (o & Ho & Hcall).
    unfold disposeCallback in Hcall. apply in_app_or in Hcall as [Hg|Hm].
    + destruct (geometryOf o) as [g|] eqn:Eg; [|done].
      unfold disposeIfCan in Hg. destruct (hasDispose g) eqn:Ed; [|done].
      destruct Hg as [[= <-]|[]]. by exists o, g.
    + exfalso. destruct (materialOf o) as [|m|ms]; [done| |].
      * unfold disposeIfCan in Hm. destruct (hasDispose m); [|done].
        by destruct Hm as [?|[]].
      * apply in_flat_map in Hm as (m & _ & Hm).
        unfold disposeIfCan in Hm. destruct (hasDispose m); [|done].
        by destruct Hm as [?|[]].
Qed.

Lemma removeObject_head (c : nat) (rest : list nat) :
  removeObject c (c :: rest) = rest.
Proof. simpl. by rewrite Nat.eqb_refl. Qed.

(** X14.  The loop that empties [scene.children] ends: for a scene with
    [n] children it makes exactly [n] calls of [scene.remove], on the
    children in their order, and [n] iterations are needed; on a scene
    without children it makes none. *)
Theorem children_loop_removes_all (cs : list nat) (fuel : nat) :
  (length cs ≤ fuel → removeAllChildren fuel cs = Some cs) ∧
  (fuel < length cs → removeAllChildren fuel cs = None).
Proof.
  revert fuel. induction cs as [|c rest IH]; intros fuel.
  - split; [by destruct fuel | simpl; lia].
  - destruct fuel as [|fuel]; simpl; [split; [lia|done]|].
    rewrite Nat.eqb_refl. destruct (IH fuel) as [Hok Hshort]. split; intros Hlen.
    + rewrite Hok by lia. done.
    + rewrite Hshort by lia. done.
Qed.

Lemma children_loop_removes_all_witness :
  removeAllChildren 3 [4; 9; 4] = Some [4; 9; 4] ∧
  removeAllChildren 2 [4; 9; 4] = None.
Proof.
  split.
  - apply (children_loop_removes_all [4; 9; 4] 3). simpl. lia.
  - apply (children_loop_removes_all [4; 9; 4] 2). simpl. lia.
Defined.

(** A material shared by two meshes is disposed once for each of them. *)
Example shared_material_disposed_twice :
  let m := {| resource := 5; hasDispose := true |} in
  let mesh g := Object (Some {| resource := g; hasDispose := true |})
                       (SingleMaterial m) [] in
  disposeScene (Object None NoMaterial [mesh 1; Object None NoMaterial [mesh 2]])
  = [GeometryDispose 1; MaterialDispose 5; GeometryDispose 2; MaterialDispose 5].
Proof. reflexivity. Qed.

(** * Key events during frames that do not update *)

Section SessionFacts.
Context {P : Type} `{HitPauseService P} {G : Type} `{GameController G}.

Lemma runSession_frozen (hps : list Happening)
    (l : Loop P (InputSystem * (Entities * G))) :
  allFrozen (hitPause l) hps →
  loopWorld (runSession hps l)
  = (dispatch (flat_map keyEventOf hps) (loopWorld l).1, (loopWorld l).2).
Proof.
  revert l. induction hps as [|hp rest IH]; intros l Hfrozen.
  - simpl. by destruct (loopWorld l).
  - destruct hp as [raw|ev]; simpl in *.
    + destruct Hfrozen as [Hd Hrest].
      rewrite IH by (by rewrite animate_hitPause).
      rewrite loopWorld_animate. by rewrite (proj2 (ltb_ge _ _) Hd).
    + by rewrite IH.
Qed.

Lemma runSession_app (hps hps' : list Happening)
    (l : Loop P (InputSystem * (Entities * G))) :
  runSession (hps ++ hps') l = runSession hps' (runSession hps l).
Proof. unfold runSession. by rewrite foldl_app. Qed.
End SessionFacts.

(** X15.  While the frames do not update (their delta after the hit-pause
    service is not positive), key events still reach the listeners but
    nothing else moves: the store and the game state stay as they were, and
    the key set is the old one after the events.  The first frame that
    updates then sees the events as if they had all arrived just before it;
    so a key pressed during such frames and still held fires on that frame,
    and a key pressed and released during them is never seen. *)
Theorem frozen_frames_keep_key_events
    {P : Type} `{HitPauseService P} {G : Type} `{GameController G}
    (hps : list Happening) (raw : Qc)
    (l : Loop P (InputSystem * (Entities * G))) :
  allFrozen (hitPause l) hps →
  let s := dispatch (flat_map keyEventOf hps) (loopWorld l).1 in
  loopWorld (runSession hps l) = (s, (loopWorld l).2) ∧
  ((0 < (hitPauseUpdate (hitPause (runSession hps l)) raw).1)%Qc →
   loopWorld (runSession (hps ++ [Tick raw]) l)
   = (s, updateEntities s (loopWorld l).2.1 (loopWorld l).2.2)).
Proof.
  intros Hfrozen s. pose proof (runSession_frozen hps l Hfrozen) as Hw.
  split; [exact Hw|]. intros Hpos.
  rewrite runSession_app. simpl. rewrite loopWorld_animate.
  rewrite (proj2 (ltb_lt _ _) Hpos), Hw. done.
Qed.

Lemma frozen_frames_keep_key_events_witness :
  let l : Loop unit (InputSystem * (Entities * string)) :=
    {| hitPause := tt;
       loopWorld := (noKeys, (onePlayer, "playing"%string));
       actions := [] |} in
  let pressed := [Key (KeyDown "Space"); Tick 0%Qc; Tick 0%Qc] in
  let tapped := [Key (KeyDown "Space"); Tick 0%Qc; Key (KeyUp "Space"); Tick 0%Qc] in
  (attack <$> inputOf 0 (loopWorld (runSession (pressed ++ [Tick (num 1 60)]) l)).2.1)
  = Some true ∧
  (attack <$> inputOf 0 (loopWorld (runSession (tapped ++ [Tick (num 1 60)]) l)).2.1)
  = Some false.
Proof.
  intros l pressed tapped. split.
  - assert (Hfrozen : allFrozen (hitPause l) pressed).
    { simpl. repeat split; qc_compare. }
    destruct (frozen_frames_keep_key_events pressed (num 1 60) l Hfrozen)
      as [_ Hfirst].
    rewrite Hfirst by qc_compare. vm_compute. reflexivity.
  - assert (Hfrozen : allFrozen (hitPause l) tapped).
    { simpl. repeat split; qc_compare. }
    destruct (frozen_frames_keep_key_events tapped (num 1 60) l Hfrozen)
      as [_ Hfirst].
    rewrite Hfirst by qc_compare. vm_compute. reflexivity.
Defined.

Lemma held_keys_settle_after_two_updates_witness :
  inputFrames (G:=StringController.state)
    (spaceHeld :: spaceHeld :: replicate 5 spaceHeld) (onePlayer, "playing"%string)
  = inputFrames [spaceHeld; spaceHeld] (onePlayer, "playing"%string).
Proof.
  apply (@held_keys_settle_after_two_updates
           _ StringController.controller spaceHeld (onePlayer, "playing"%string) 5).
Defined.

Lemma scene_disposal_reaches_every_object_witness :
  let leaf := Object (Some {| resource := 2; hasDispose := true |})
                     (MaterialArray [{| resource := 5; hasDispose := true |};
                                     {| resource := 6; hasDispose := false |}]) [] in
  let scene := Object None NoMaterial [Object None NoMaterial [leaf]] in
  In (GeometryDispose 2) (disposeScene scene) ∧
  In (MaterialDispose 5) (disposeScene scene).
Proof.
  intros leaf scene.
  assert (Hleaf : inGraph scene leaf).
  { eapply inGraph_child; [by left|]. eapply inGraph_child; [by left|]. constructor. }
  destruct (scene_disposal_reaches_every_object scene) as (_ & Hg & _ & Hms & _).
  split.
  - apply (Hg leaf {| resource := 2; hasDispose := true |} Hleaf eq_refl eq_refl).
  - apply (Hms leaf _ {| resource := 5; hasDispose := true |} Hleaf eq_refl);
      [by left | reflexivity].
Defined.

(** * C2: what a zero-delta [World.update] changes *)





Section QuietFrame.
Context {G : Type} `{GameController G}.





End QuietFrame.





(** The frame has to be quiet: a hit that lands on a zero-delta frame is
    resolved like any other. *)
Example zero_delta_hit_still_lands :
  let rt := World_update [SInput noKeys; SLifespan ∅; SDamage [fatalHit]; SHealth]
              0%Qc (runtimeOf arena "playing") in
  events rt = [Damaged 7 "a1" (num 5 1); OnDeath 7 "dropLoot"] ∧
  getEntity 7 (entities (world rt)) = None.
Proof. vm_compute. done. Qed.
